(** * Set operations app (app.py): parsing layer and two-set evaluator

    A shallow embedding of the non-UI content of [app.py]: the element,
    set and universal-set parsers, the display formatter, the validation
    of the universal set and the module-level dispatch that maps an
    operation name to a result set and to the Venn regions to emphasise.
    The three-set branch of the script is outside this development.

    Conventions.
    - A Python [str] is embedded as the list of its code points
      ([pystr]).  The literals of the program ("A ∪ B", "∅") are written
      as they are in the source, through [u], which decodes the UTF-8
      bytes of a literal of this file into code points.
    - The character classes of the runtime are the Unicode ones:
      [Py.isspace] is the whitespace of [str.strip] and of [\s],
      [Py.isdecimal] the decimal digits (category Nd) that [\d] matches
      and [int] accepts, each with its digit value; [int] skips the
      whitespace of [Py.isspace_c] around a literal.
    - A Python [int] is a [Z].  [int] refuses a literal of more than
      [Py.int_max_str_digits] digits with [ValueError], the default of
      the interpreter.  The integers the program holds come from [int]
      or lie between two such bounds, so [str] is applied to integers
      below that limit only, and is embedded without it.
    - A set element is an [int] or a [str]; a Python [set] is a
      [gset element], iterated in the order of [elements].  What is shown
      does not depend on that order ([display_order_irrelevant]).
    - [sorted] is embedded as a stable insertion sort that calls [<]: as
      any sort that only compares, it returns the one sorted arrangement
      when every comparison returns, and it has to compare an integer
      with a string when both kinds are present.
    - An exception is a [None] result of the primitive that raises it
      ([int] raising [ValueError], [sorted] raising [TypeError]); the
      [try]/[except] of the source is the [match] on that result, and a
      function of the script returns [None] when an exception leaves it.
    - The calls into the UI framework are collected, in program order, in
      a list of [st_call]. *)

From Stdlib Require Import ZArith NArith Ascii String List.
From stdpp Require Import base decidable countable strings list list_numbers
  sorting gmap pretty.

Local Open Scope Z_scope.

#[local] Set Warnings "-clear-no-such-hyp".

(** ** Text *)

(** A Python [str] is the list of its code points. *)
Abbreviation pystr := (list N).

(** The characters of an ASCII text, one code point for each. *)
Definition ascii_text (s : string) : pystr :=
  N_of_ascii <$> list_ascii_of_string s.

(** UTF-8 decoding of a list of bytes: one, two, three and four byte
    sequences. *)
Fixpoint utf8_decode (l : list N) : pystr :=
  match l with
  | [] => []
  | b :: r =>
      if (b <? 128)%N then b :: utf8_decode r
      else if (b <? 224)%N then
        match r with
        | b1 :: r1 => ((b - 192) * 64 + (b1 - 128))%N :: utf8_decode r1
        | [] => [b]
        end
      else if (b <? 240)%N then
        match r with
        | b1 :: b2 :: r2 =>
            ((b - 224) * 4096 + (b1 - 128) * 64 + (b2 - 128))%N
            :: utf8_decode r2
        | _ => [b]
        end
      else
        match r with
        | b1 :: b2 :: b3 :: r3 =>
            ((b - 240) * 262144 + (b1 - 128) * 4096 + (b2 - 128) * 64
             + (b3 - 128))%N :: utf8_decode r3
        | _ => [b]
        end
  end.

(** A literal of the program: the text a source literal denotes. *)
Definition u (s : string) : pystr := utf8_decode (ascii_text s).

(** Characters the program and the runtime name. *)
Abbreviation c_comma := 44%N.
Abbreviation c_plus := 43%N.
Abbreviation c_minus := 45%N.
Abbreviation c_under := 95%N.

(** ** Python runtime primitives used by the program *)
Module Py.

(** [str.isspace] on one character, which is also the class [\s] of a
    [str] pattern: TAB to CR, the separators FS to US, SPACE, NEL,
    NO-BREAK SPACE, and the Unicode space separators. *)
Definition isspace (c : N) : bool :=
  ((9 <=? c) && (c <=? 13) || (28 <=? c) && (c <=? 32) ||
   (c =? 133) || (c =? 160) || (c =? 5760) ||
   (8192 <=? c) && (c <=? 8202) || (c =? 8232) || (c =? 8233) ||
   (c =? 8239) || (c =? 8287) || (c =? 12288))%N.

(** The whitespace that [int] skips around a literal: among the ASCII
    characters only TAB to CR and SPACE (the C-level class), and every
    other whitespace character of [isspace]. *)
Definition isspace_c (c : N) : bool :=
  if (c <? 127)%N then ((9 <=? c) && (c <=? 13) || (c =? 32))%N
  else isspace c.

(** The decimal digits of Unicode 14 come in runs of ten, zero first;
    these are the zeros. *)
Definition decimal_zeros : list N :=
  [ 48; 1632; 1776; 1984; 2406; 2534; 2662; 2790; 2918; 3046; 3174; 3302;
    3430; 3558; 3664; 3792; 3872; 4160; 4240; 6112; 6160; 6470; 6608; 6784;
    6800; 6992; 7088; 7232; 7248; 42528; 43216; 43264; 43472; 43504; 43600;
    44016; 65296; 66720; 68912; 69734; 69872; 69942; 70096; 70384; 70736;
    70864; 71248; 71360; 71472; 71904; 72016; 72784; 73040; 73120; 92768;
    92864; 93008; 120782; 120792; 120802; 120812; 120822; 123200; 123632;
    125264; 130032 ]%N.

(** The value of a decimal digit: the class [\d] of a [str] pattern and
    the digits [int] reads. *)
Fixpoint decimal_in (zeros : list N) (c : N) : option N :=
  match zeros with
  | [] => None
  | z :: zs =>
      if ((z <=? c) && (c <? z + 10))%N then Some (c - z)%N
      else decimal_in zs c
  end.

Definition decimal (c : N) : option N := decimal_in decimal_zeros c.

Definition isdecimal (c : N) : bool :=
  match decimal c with Some _ => true | None => false end.

Definition digit_value (c : N) : Z :=
  match decimal c with Some d => Z.of_N d | None => 0 end.

(** Removing the characters of a class from the left end, from the right
    end, and from both ends of a string. *)
Fixpoint lstrip_of (p : N -> bool) (s : pystr) : pystr :=
  match s with
  | [] => []
  | c :: r => if p c then lstrip_of p r else s
  end.

Fixpoint rstrip_of (p : N -> bool) (s : pystr) : pystr :=
  match s with
  | [] => []
  | c :: r =>
      match rstrip_of p r with
      | [] => if p c then [] else [c]
      | r' => c :: r'
      end
  end.

Definition strip_of (p : N -> bool) (s : pystr) : pystr :=
  rstrip_of p (lstrip_of p s).

(** [str.lstrip()], [str.rstrip()] and [str.strip()] without argument. *)
Abbreviation lstrip := (lstrip_of isspace).
Abbreviation rstrip := (rstrip_of isspace).
Abbreviation strip := (strip_of isspace).

(** [str.split(sep)] for a one-character separator: every occurrence
    splits, empty pieces are kept, and the empty string gives one empty
    piece. *)
Fixpoint split (sep : N) (s : pystr) : list pystr :=
  match s with
  | [] => [[]]
  | c :: r =>
      if (c =? sep)%N then [] :: split sep r
      else match split sep r with
           | p :: ps => (c :: p) :: ps
           | [] => [[c]]
           end
  end.

(** [sep.join(parts)]. *)
Fixpoint join (sep : pystr) (parts : list pystr) : pystr :=
  match parts with
  | [] => []
  | [p] => p
  | p :: ps => p ++ sep ++ join sep ps
  end.

(** [s.startswith(needle)] and [needle in s]. *)
Fixpoint startswith (needle s : pystr) : bool :=
  match needle, s with
  | [], _ => true
  | _ :: _, [] => false
  | a :: n', b :: s' => (a =? b)%N && startswith n' s'
  end.

Fixpoint contains (needle s : pystr) : bool :=
  startswith needle s ||
  match s with
  | [] => false
  | _ :: r => contains needle r
  end.

(** The most digits [int] converts (the default of the interpreter);
    a longer literal is refused with [ValueError]. *)
Definition int_max_str_digits : N := 4300.

(** The digit part of an [int] literal in base ten: digits, with single
    underscores allowed between two digits. [cnt] counts the digits read
    and [prev_us] records that the previous character was an
    underscore. *)
Fixpoint int_digits (acc : Z) (cnt : N) (prev_us : bool) (s : pystr)
  : option Z :=
  match s with
  | [] =>
      if prev_us then None
      else if (cnt <=? int_max_str_digits)%N then Some acc else None
  | c :: r =>
      if isdecimal c then
        int_digits (10 * acc + digit_value c) (cnt + 1) false r
      else if (c =? c_under)%N then
        if prev_us then None else int_digits acc cnt true r
      else None
  end.

Definition int_unsigned (s : pystr) : option Z :=
  match s with
  | [] => None
  | c :: r =>
      if isdecimal c then int_digits (digit_value c) 1 false r else None
  end.

(** [int(s)] for a string: surrounding whitespace is skipped, one sign is
    accepted, the rest must be a digit part. [None] is [ValueError]. *)
Definition int (s : pystr) : option Z :=
  match strip_of isspace_c s with
  | [] => None
  | c :: r =>
      if (c =? c_plus)%N then int_unsigned r
      else if (c =? c_minus)%N then Z.opp <$> int_unsigned r
      else int_unsigned (c :: r)
  end.

End Py.

(** ** Elements and sets *)

Inductive element : Type :=
  | EInt (n : Z)
  | EStr (s : pystr).

#[global] Instance element_eq_dec : EqDecision element.
Proof. solve_decision. Defined.

#[global] Instance element_countable : Countable element :=
  inj_countable'
    (fun e => match e with EInt n => inl n | EStr s => inr s end)
    (fun x => match x with inl n => EInt n | inr s => EStr s end)
    (fun e => match e with EInt _ | EStr _ => eq_refl end).

(** ** Helper functions of the app *)

(** [parse_element]: strip, empty gives [None], then [int] with the
    trimmed text as fallback on [ValueError]. *)
Definition parse_element (x : pystr) : option element :=
  let x_str := Py.strip x in
  match x_str with
  | [] => None
  | _ =>
      match Py.int x_str with
      | Some n => Some (EInt n)
      | None => Some (EStr x_str)
      end
  end.

(** [parse_set]: the loop over [text.split(',')] adding every parsed
    element to [result]. *)
Definition parse_set_step (result : gset element) (part : pystr) : gset element :=
  match parse_element part with
  | Some el => result ∪ {[ el ]}
  | None => result
  end.

Definition parse_set (text : pystr) : gset element :=
  foldl parse_set_step ∅ (Py.split c_comma text).

(** *** The range pattern of [parse_universal]

    [re.fullmatch(r"\s*([-]?\d+)\s*-\s*([-]?\d+)\s*", txt)].  Whitespace,
    the minus sign and the digits are pairwise disjoint classes, so the
    greedy left-to-right reading below is the only way the pattern can
    match; [range_pattern] further down states the pattern itself. *)

(** Longest prefix of characters in a class, and what follows it. *)
Fixpoint span (p : N -> bool) (s : pystr) : pystr * pystr :=
  match s with
  | [] => ([], [])
  | c :: r =>
      if p c then let '(a, b) := span p r in (c :: a, b)
      else ([], s)
  end.

(** The group [([-]?\d+)]: the text of the group and the rest. *)
Definition match_int_group (s : pystr) : option (pystr * pystr) :=
  let '(sign, s1) :=
    match s with
    | [] => ([], s)
    | c :: r => if (c =? c_minus)%N then ([c_minus], r) else ([], s)
    end in
  let '(ds, rest) := span Py.isdecimal s1 in
  match ds with
  | [] => None
  | _ => Some (sign ++ ds, rest)
  end.

(** The whole pattern; the result is [(group(1), group(2))]. *)
Definition range_fullmatch (txt : pystr) : option (pystr * pystr) :=
  '(g1, s1) ← match_int_group (Py.lstrip txt);
  match Py.lstrip s1 with
  | [] => None
  | c :: s2 =>
      if (c =? c_minus)%N then
        '(g2, s3) ← match_int_group (Py.lstrip s2);
        match Py.lstrip s3 with
        | [] => Some (g1, g2)
        | _ => None
        end
      else None
  end.

(** [set(range(start, stop))]. *)
Definition set_range (start stop : Z) : gset element :=
  list_to_set (EInt <$> seqZ start (stop - start)).

(** [parse_universal]. The two [int] calls can raise [ValueError], which
    nothing catches: [None] is that exception leaving the function. *)
Definition parse_universal (text : pystr) : option (gset element) :=
  let txt := Py.strip text in
  match range_fullmatch txt with
  | Some (g1, g2) =>
      start ← Py.int g1;
      end_ ← Py.int g2;
      if (start <=? end_)%Z then Some (set_range start (end_ + 1))
      else Some (set_range end_ (start + 1))
  | None => Some (parse_set txt)
  end.

(** *** Display *)

(** [str(e)] for an element: the decimal text of an integer, the string
    itself. *)
Definition str (e : element) : pystr :=
  match e with
  | EInt n => ascii_text (pretty n)
  | EStr s => s
  end.

(** [a < b] on strings: code point by code point, a proper prefix
    first. *)
Fixpoint str_compare (a b : pystr) : comparison :=
  match a, b with
  | [], [] => Eq
  | [], _ :: _ => Lt
  | _ :: _, [] => Gt
  | x :: a', y :: b' =>
      match (x ?= y)%N with
      | Eq => str_compare a' b'
      | r => r
      end
  end.

Definition str_ltb (a b : pystr) : bool :=
  match str_compare a b with Lt => true | _ => false end.

(** [x < y] on elements: integers by value, strings lexicographically,
    and [TypeError] ([None]) across the two types. *)
Definition elt_lt (x y : element) : option bool :=
  match x, y with
  | EInt a, EInt b => Some (a <? b)%Z
  | EStr a, EStr b => Some (str_ltb a b)
  | _, _ => None
  end.

(** [sorted]: a stable sort that only uses [<]; a comparison that raises
    makes the whole sort raise. *)
Section Sorted.
Context {A : Type} (lt : A -> A -> option bool).

Fixpoint insert_stable (x : A) (l : list A) : option (list A) :=
  match l with
  | [] => Some [x]
  | y :: l' =>
      b ← lt y x;
      if b : bool then (y ::.) <$> insert_stable x l'
      else Some (x :: l)
  end.

Fixpoint sorted (l : list A) : option (list A) :=
  match l with
  | [] => Some []
  | x :: l' => l'' ← sorted l'; insert_stable x l''
  end.
End Sorted.

(** [sorted(s, key=lambda x: str(x))]: keys are strings, so no comparison
    raises. *)
Definition key_lt (x y : element) : option bool :=
  Some (str_ltb (str x) (str y)).

(** [sort_result], on the order [l] in which the set is iterated. *)
Definition sort_result_list (l : list element) : option (list element) :=
  match sorted elt_lt l with
  | Some r => Some r
  | None => sorted key_lt l
  end.

Definition sort_result (s : gset element) : option (list element) :=
  sort_result_list (elements s).

(** [format_set]. *)
Definition format_set (s : gset element) : option pystr :=
  if decide (s = ∅) then Some (u "∅")
  else
    elems ← sort_result s;
    Some (u "{" ++ Py.join (u ", ") (str <$> elems) ++ u "}").

(** ** The Venn diagram section of the script *)

(** Equality of two strings, as [==] decides it. *)
Definition str_eqb (a b : pystr) : bool := bool_decide (a = b).

(** What the script hands to the UI framework, in program order. *)
Inductive st_call : Type :=
  | st_sidebar_error (msg : pystr)
  | st_error (msg : pystr)
  | plot_venn2_local (s1 s2 : gset element) (c1 c2 : pystr)
      (hids : list pystr) (repr_str : pystr)
  | st_write (msg : pystr)
  | st_info (msg : pystr).

(** The two operation menus of the sidebar. *)
Definition two_set_menu : list pystr :=
  [ u "A ∪ B"; u "A ∩ B"; u "A \ B"; u "B \ A";
    u "Complement of A"; u "Complement of B";
    u "Complement of (A ∪ B)"; u "Complement of (A ∩ B)" ].

Definition three_set_menu : list pystr :=
  [ u "A ∪ B ∪ C"; u "A ∩ B ∩ C";
    u "A \ (B ∪ C)"; u "B \ (A ∪ C)"; u "C \ (A ∪ B)";
    u "(A ∩ B) \ C"; u "(A ∩ C) \ B"; u "(B ∩ C) \ A";
    u "Complement of A"; u "Complement of B"; u "Complement of C";
    u "Complement of (A ∪ B ∪ C)"; u "Complement of (A ∩ B ∩ C)" ].

(** The menu shown for a number of sets. *)
Definition operation_menu (num_sets : Z) : list pystr :=
  if (num_sets =? 2)%Z then two_set_menu else three_set_menu.

(** The widget values the section reads. *)
Record inputs : Type := {
  num_sets : Z;
  A_input : pystr;
  B_input : pystr;
  C_input : pystr;
  color_A : pystr;
  color_B : pystr;
  U_input : pystr;
  operation : pystr;
}.

(** The variables bound once the inputs are parsed. [C] is [None] unless
    three sets were asked for. *)
Record parsed : Type := {
  A : gset element;
  B : gset element;
  C : option (gset element);
  U : gset element;
}.

Definition parse_inputs (i : inputs) : option parsed :=
  let A := parse_set (A_input i) in
  let B := parse_set (B_input i) in
  let C := if (num_sets i =? 3)%Z then Some (parse_set (C_input i)) else None in
  U ← parse_universal (U_input i);
  Some {| A := A; B := B; C := C; U := U |}.

(** The elements of the input sets that [U] lacks, as the validation
    accumulates them. Subtracting from [C = None] would raise. *)
Definition missing_elements (num_sets : Z) (p : parsed) : option (gset element) :=
  let missing : gset element := ∅ in
  let missing := missing ∪ (A p ∖ U p) in
  let missing := missing ∪ (B p ∖ U p) in
  if (num_sets =? 3)%Z then
    c ← C p; Some (missing ∪ (c ∖ U p))
  else Some missing.

(** "Validate universal coverage for complements": the calls it makes. *)
Definition validate_universal (operation : pystr) (num_sets : Z) (p : parsed)
  : option (list st_call) :=
  if Py.contains (u "Complement") operation then
    missing ← missing_elements num_sets p;
    if decide (missing = ∅) then Some []
    else
      repr ← format_set missing;
      Some [ st_sidebar_error
               (u "Universal set missing elements: " ++ repr ++
                (u ". Complements may be incomplete.")) ]
  else Some [].

(** The variables the two-set dispatch leaves behind. *)
Record dispatch2 : Type := {
  set1 : gset element;
  set2 : gset element;
  colors : pystr * pystr;
  result : gset element;
  highlight_ids : list pystr;
  dispatch_calls : list st_call;
}.

(** "Compute result & highlight region IDs", [num_sets == 2]. *)
Definition two_set_dispatch (operation : pystr) (A B U : gset element)
    (color_A color_B : pystr) : dispatch2 :=
  let base r h :=
    {| set1 := A; set2 := B; colors := (color_A, color_B);
       result := r; highlight_ids := h; dispatch_calls := [] |} in
  let compl operand c2 :=
    {| set1 := U; set2 := operand; colors := (u "#CCCCCC", c2);
       result := U ∖ operand; highlight_ids := [u "10"];
       dispatch_calls := [] |} in
  if str_eqb operation (u "A ∪ B") then base (A ∪ B) [u "10"; u "01"; u "11"]
  else if str_eqb operation (u "A ∩ B") then base (A ∩ B) [u "11"]
  else if str_eqb operation (u "A \ B") then base (A ∖ B) [u "10"]
  else if str_eqb operation (u "B \ A") then base (B ∖ A) [u "01"]
  else if str_eqb operation (u "Complement of A") then compl A color_A
  else if str_eqb operation (u "Complement of B") then compl B color_B
  else if str_eqb operation (u "Complement of (A ∪ B)") then
    let union := A ∪ B in compl union (u "#888888")
  else if str_eqb operation (u "Complement of (A ∩ B)") then
    let inter := A ∩ B in compl inter (u "#888888")
  else
    {| set1 := ∅; set2 := ∅; colors := (color_A, color_B);
       result := ∅; highlight_ids := [];
       dispatch_calls := [st_error (u "Unknown operation.")] |}.

(** The "Detailed Regions" of the two-set view. *)
Definition regions (A B : gset element) : list (pystr * (gset element * pystr)) :=
  let A_only := A ∖ B in
  let B_only := B ∖ A in
  let AB := A ∩ B in
  [ (u "A only", (A_only, u "10")); (u "B only", (B_only, u "01")); (u "A ∩ B", (AB, u "11")) ].

Definition region_line (highlight_ids : list pystr)
    (r : pystr * (gset element * pystr)) : option st_call :=
  let '(label, (subset, rid)) := r in
  let incl := if bool_decide (rid ∈ highlight_ids) then u "✅" else u "❌" in
  repr ← format_set subset;
  Some (st_write (u "**" ++ label ++ u "**: " ++ repr ++ u " " ++ incl)).

(** The two-set branch: dispatch, diagram, result column. *)
Definition two_set_branch (operation : pystr) (A B U : gset element)
    (color_A color_B : pystr) : option (list st_call) :=
  let d := two_set_dispatch operation A B U color_A color_B in
  result_repr ← format_set (result d);
  let plot :=
    plot_venn2_local (set1 d) (set2 d) (colors d).1 (colors d).2
      (highlight_ids d) result_repr in
  column ←
    (if decide (result d = ∅) then Some [st_info (u "Resulting set is empty (∅).")]
     else
       detail ← mapM (region_line (highlight_ids d)) (regions A B);
       Some (st_write (u "Result: " ++ result_repr) :: detail));
  Some (dispatch_calls d ++ plot :: column)%list.

(** The section for two sets: parsing, validation, then the branch. *)
Definition venn_two_sets (i : inputs) : option (list st_call) :=
  p ← parse_inputs i;
  warn ← validate_universal (operation i) (num_sets i) p;
  out ← two_set_branch (operation i) (A p) (B p) (U p) (color_A i) (color_B i);
  Some (warn ++ out)%list.

(** The values the widgets have when the page is first shown with two
    sets, for an operation of the menu. [C_input] is read only when
    [num_sets] is 3. *)
Definition default2 (op : pystr) : inputs :=
  {| num_sets := 2; A_input := u "2, 4, 6, 8"; B_input := u "3, 4, 5, 6, 9";
     C_input := []; color_A := u "#FF5733"; color_B := u "#33C1FF";
     U_input := u "1-10"; operation := op |}.

(** * Definitions used to state the properties *)

(** Every character of a string is in a class. *)
Fixpoint all_chars (p : N -> bool) (s : pystr) : bool :=
  match s with
  | [] => true
  | c :: r => p c && all_chars p r
  end.

(** The first character of a non-empty string is in a class. *)
Definition head_is (p : N -> bool) (s : pystr) : bool :=
  match s with
  | [] => false
  | c :: _ => p c
  end.

Abbreviation all_space := (all_chars Py.isspace).
Abbreviation all_digits := (all_chars Py.isdecimal).

(** A digit string read positionally, most significant digit first. *)
Fixpoint decimal_value (ds : pystr) : Z :=
  match ds with
  | [] => 0
  | c :: r =>
      Py.digit_value c * 10 ^ Z.of_nat (length r) + decimal_value r
  end.

(** The three admissible signs and their factor. *)
Definition is_sign (sign : pystr) : bool :=
  str_eqb sign [] || str_eqb sign (u "+") || str_eqb sign (u "-").

Definition sign_factor (sign : pystr) : Z :=
  if str_eqb sign (u "-") then -1 else 1.

(** An integer-looking token: padding, an optional sign, digits, padding. *)
Definition int_token (w1 sign ds w2 : pystr) : bool :=
  all_space w1 && is_sign sign && negb (str_eqb ds []) &&
  all_digits ds && all_space w2.

(** The digits of a literal are at most [Py.int_max_str_digits]. *)
Definition within_limit (ds : pystr) : bool :=
  (N.of_nat (length ds) <=? Py.int_max_str_digits)%N.

(** A text of commas and whitespace only. *)
Definition blank_text (text : pystr) : bool :=
  all_chars (fun c => (c =? c_comma)%N || Py.isspace c) text.

(** The group [[-]?\d+]. *)
Definition int_group (g : pystr) : Prop :=
  exists sign ds,
    g = sign ++ ds /\ (sign = [] \/ sign = u "-") /\
    ds <> [] /\ all_digits ds = true.

(** The pattern [\s*([-]?\d+)\s*-\s*([-]?\d+)\s*] matching the whole of
    [txt] with the two groups [g1] and [g2]. *)
Definition range_pattern (txt g1 g2 : pystr) : Prop :=
  exists w0 w1 w2 w3,
    all_space w0 = true /\ all_space w1 = true /\
    all_space w2 = true /\ all_space w3 = true /\
    int_group g1 /\ int_group g2 /\
    txt = w0 ++ g1 ++ w1 ++ u "-" ++ w2 ++ g2 ++ w3.

(** The digits of a group, and the integer a group denotes. *)
Definition group_digits (g : pystr) : pystr := List.filter Py.isdecimal g.

Definition group_value (g : pystr) : Z :=
  (if head_is (N.eqb c_minus) g then -1 else 1) * decimal_value (group_digits g).


(** [x] may stand before [y] in a sorted list: [y < x] is false. *)
Definition not_after {A : Type} (lt : A -> A -> option bool) (x y : A) : Prop :=
  lt y x = Some false.

(** The two kinds of elements, and lists of a single kind. *)
Definition is_int (e : element) : bool :=
  match e with EInt _ => true | EStr _ => false end.

Definition same_kind (b : bool) (l : list element) : bool :=
  forallb (fun e => Bool.eqb (is_int e) b) l.

Definition homogeneous (l : list element) : bool :=
  same_kind true l || same_kind false l.

(** [a <= b] on strings. *)
Definition str_le (a b : pystr) : Prop := str_compare a b <> Gt.

(** The natural order of elements of one kind, and the order of the
    string keys. *)
Definition elt_le (x y : element) : Prop :=
  match x, y with
  | EInt a, EInt b => (a <= b)%Z
  | EStr a, EStr b => str_le a b
  | _, _ => False
  end.

Definition key_le (x y : element) : Prop := str_le (str x) (str y).

(** The union of the detailed regions whose identifier is highlighted. *)
Definition highlighted_union (A B : gset element) (hids : list pystr)
  : gset element :=
  ⋃ ((fun r => r.2.1) <$> filter (fun r => r.2.2 ∈ hids) (regions A B)).

(** The complement operations of the two-set menu with their operands. *)
Definition complement_table (A B : gset element) : list (pystr * gset element) :=
  [ (u "Complement of A", A); (u "Complement of B", B);
    (u "Complement of (A ∪ B)", A ∪ B); (u "Complement of (A ∩ B)", A ∩ B) ].

(** The two-set menu as a lookup table: name, result formula over
    [(A, B, U)], highlighted regions. *)
Definition two_set_table
  : list (pystr *
          ((gset element -> gset element -> gset element -> gset element) *
           list pystr)) :=
  [ (u "A ∪ B", (fun A B _ => A ∪ B, [u "10"; u "01"; u "11"]));
    (u "A ∩ B", (fun A B _ => A ∩ B, [u "11"]));
    (u "A \ B", (fun A B _ => A ∖ B, [u "10"]));
    (u "B \ A", (fun A B _ => B ∖ A, [u "01"]));
    (u "Complement of A", (fun A _ U => U ∖ A, [u "10"]));
    (u "Complement of B", (fun _ B U => U ∖ B, [u "10"]));
    (u "Complement of (A ∪ B)", (fun A B U => U ∖ (A ∪ B), [u "10"]));
    (u "Complement of (A ∩ B)", (fun A B U => U ∖ (A ∩ B), [u "10"])) ].

(** The default sets against the universal set "1-5". *)
Definition short_universal : inputs :=
  {| num_sets := 2; A_input := u "2, 4, 6, 8"; B_input := u "3, 4, 5, 6, 9";
     C_input := []; color_A := u "#FF5733"; color_B := u "#33C1FF";
     U_input := u "1-5"; operation := u "Complement of A" |}.

(** ** Definitions for the further properties *)

(** A text without a comma. *)
Definition no_comma (s : pystr) : bool :=
  all_chars (fun c => negb ((c =? c_comma)%N)) s.

(** A text that [parse_element] keeps as a string, unchanged: not empty,
    no whitespace at either end, no comma, and not an integer literal. *)
Definition kept_text (s : pystr) : bool :=
  negb (str_eqb s []) && str_eqb (Py.strip s) s && no_comma s &&
  match Py.int s with Some _ => false | None => true end.

(** The elements that parsing can produce: integers written with at most
    [Py.int_max_str_digits] digits, and kept texts. *)
Definition parsed_element (e : element) : bool :=
  match e with
  | EInt n => (Z.abs n <? 10 ^ Z.of_N Py.int_max_str_digits)%Z
  | EStr s => kept_text s
  end.

(** * The embedding on concrete inputs *)

Example u_ex : u "A ∪ B" = [65; 32; 8746; 32; 66]%N /\ u "∅" = [8709]%N.
Proof. split; reflexivity. Qed.

Example int_ex0 :
  Py.int (u " +12 ") = Some 12 /\ Py.int (u "١٢") = Some 12 /\
  Py.int (u "1_0") = Some 10 /\ Py.int (u "- 5") = None /\
  Py.int (28%N :: u "5") = None /\ Py.int (160%N :: u "5") = Some 5 /\
  Py.int (repeat 49%N 4300) <> None /\ Py.int (repeat 49%N 4301) = None /\
  Py.strip (u " 1 2 ") = u "1 2".
Proof. repeat split; try reflexivity. by vm_compute. Qed.

Example parse_ex0 :
  parse_set (u "1,1, 2") = {[ EInt 1; EInt 2 ]} /\
  parse_universal (u "٣-٧") = parse_universal (u "3-7") /\
  parse_universal (u "7 - 3") = Some {[ EInt 3; EInt 4; EInt 5; EInt 6; EInt 7 ]} /\
  format_set (parse_set (u "10,9,b,-3, a ,B")) = Some (u "{-3, 10, 9, B, a, b}").
Proof. repeat split; by vm_compute. Qed.

Example strip_ex : Py.strip (u "  a b  ") = u "a b".
Proof. reflexivity. Qed.

Example split_ex : Py.split c_comma (u "a,,b,") = [u "a"; []; u "b"; []].
Proof. reflexivity. Qed.

Example split_empty_ex : Py.split c_comma [] = [[]].
Proof. reflexivity. Qed.

Example int_ex :
  Py.int (u " +12 ") = Some 12 /\ Py.int (u "-007") = Some (-7) /\
  Py.int (28%N :: u "5") = None /\
  Py.int (u "1_0") = Some 10 /\ Py.int (u "1__0") = None /\ Py.int (u "_1") = None /\
  Py.int (u "1_") = None /\ Py.int (u "- 5") = None /\ Py.int [] = None /\
  Py.int (u "12a") = None.
Proof. repeat split; reflexivity. Qed.

Example parse_element_ex :
  parse_element (u "  42 ") = Some (EInt 42) /\
  parse_element (u " a b ") = Some (EStr (u "a b")) /\
  parse_element (u "1_0") = Some (EInt 10) /\
  parse_element (u "   ") = None.
Proof. repeat split; reflexivity. Qed.

Example range_fullmatch_ex :
  range_fullmatch (u "3-7") = Some (u "3", u "7") /\
  range_fullmatch (u "-3 - -7") = Some (u "-3", u "-7") /\
  range_fullmatch (u "1 -- 2") = None /\
  range_fullmatch (u "3-7-9") = None /\
  range_fullmatch (u "--3-7") = None /\
  range_fullmatch (u "3-+7") = None /\
  range_fullmatch (u "5,10") = None.
Proof. repeat split; reflexivity. Qed.

Example sorted_ex :
  sorted elt_lt [EInt 10; EInt 9; EInt (-3)] = Some [EInt (-3); EInt 9; EInt 10] /\
  sorted elt_lt [EStr (u "b"); EStr (u "a"); EStr (u "B")] = Some [EStr (u "B"); EStr (u "a"); EStr (u "b")] /\
  sorted elt_lt [EInt 1; EInt 2; EStr (u "a"); EStr (u "b")] = None /\
  sorted elt_lt [EStr (u "a"); EInt 1] = None /\
  sorted elt_lt [EInt 1] = Some [EInt 1].
Proof. repeat split; reflexivity. Qed.

Example format_set_ex :
  format_set (parse_set (u "10,9,b,-3, a ,B")) = Some (u "{-3, 10, 9, B, a, b}") /\
  format_set (parse_set (u "10,9,-3")) = Some (u "{-3, 9, 10}").
Proof. split; by vm_compute. Qed.

(** The page as first shown: two sets, the default texts, "A ∪ B". *)
Example venn_two_sets_default :
  venn_two_sets (default2 (u "A ∪ B"))
  = Some [ plot_venn2_local
             {[ EInt 2; EInt 4; EInt 6; EInt 8 ]}
             {[ EInt 3; EInt 4; EInt 5; EInt 6; EInt 9 ]}
             (u "#FF5733") (u "#33C1FF") [u "10"; u "01"; u "11"] (u "{2, 3, 4, 5, 6, 8, 9}");
           st_write (u "Result: {2, 3, 4, 5, 6, 8, 9}");
           st_write (u "**A only**: {2, 8} ✅");
           st_write (u "**B only**: {3, 5, 9} ✅");
           st_write (u "**A ∩ B**: {4, 6} ✅") ].
Proof. by vm_compute. Qed.

(** * Facts about the runtime primitives *)

(** Literals of the program as lists of code points. *)
Ltac lit :=
  repeat match goal with
  | |- context [u ?s] =>
      let v := eval vm_compute in (u s) in change (u s) with v
  | H : context [u ?s] |- _ =>
      let v := eval vm_compute in (u s) in change (u s) with v in H
  end.

Lemma str_eqb_eq a b : str_eqb a b = true <-> a = b.
Proof. unfold str_eqb. apply bool_decide_eq_true. Qed.

Lemma str_eqb_neq a b : str_eqb a b = false <-> a <> b.
Proof. unfold str_eqb. apply bool_decide_eq_false. Qed.

Lemma str_eqb_refl a : str_eqb a a = true.
Proof. by apply str_eqb_eq. Qed.

Lemma str_eqb_spec a b : reflect (a = b) (str_eqb a b).
Proof.
  destruct (str_eqb a b) eqn:E; constructor.
  - by apply str_eqb_eq. - by apply str_eqb_neq.
Qed.

Lemma app_empty_r (s : pystr) : s ++ [] = s.
Proof. apply app_nil_r. Qed.

Lemma app_assoc_string (a b c : pystr) : (a ++ b) ++ c = a ++ (b ++ c).
Proof. symmetry. apply app_assoc. Qed.

Lemma all_chars_app p a b :
  all_chars p (a ++ b) = all_chars p a && all_chars p b.
Proof.
  induction a as [|c a IH]; simpl; [done|].
  rewrite IH. by rewrite andb_assoc.
Qed.

(** Every decimal digit lies in one of the runs of ten that start at
    [Py.decimal_zeros]. *)
Lemma decimal_in_spec zeros c d :
  Py.decimal_in zeros c = Some d ->
  exists z, z ∈ zeros /\ (z <= c)%N /\ (c < z + 10)%N /\ d = (c - z)%N.
Proof.
  induction zeros as [|z zs IH]; simpl; [done|].
  destruct ((z <=? c)%N && (c <? z + 10)%N) eqn:E.
  - intros [= <-]. apply andb_true_iff in E as [E1 E2].
    apply N.leb_le in E1. apply N.ltb_lt in E2.
    exists z. repeat split; [left | done | done].
  - intros H. destruct (IH H) as (z' & Hz & H1 & H2 & H3).
    exists z'. repeat split; [by right | done | done | done].
Qed.

(** A property of characters checked on the whole table holds of every
    decimal digit. *)
Lemma decimal_forall (P : N -> bool) :
  forallb (fun z => forallb (fun i => P (z + N.of_nat i)%N) (seq 0 10))
    Py.decimal_zeros = true ->
  forall c, Py.isdecimal c = true -> P c = true.
Proof.
  intros H c Hc. unfold Py.isdecimal, Py.decimal in Hc.
  destruct (Py.decimal_in Py.decimal_zeros c) as [d|] eqn:E; [|done].
  apply decimal_in_spec in E as (z & Hz & H1 & H2 & _).
  rewrite forallb_forall in H. apply list_elem_of_In, H in Hz.
  rewrite forallb_forall in Hz.
  replace c with (z + N.of_nat (N.to_nat (c - z)))%N by lia.
  apply Hz, in_seq. lia.
Qed.

Lemma isdigit_not_space c : Py.isdecimal c = true -> Py.isspace c = false.
Proof.
  intros H. apply negb_true_iff.
  revert c H. apply decimal_forall. by vm_compute.
Qed.

Lemma digit_not_sign c :
  Py.isdecimal c = true ->
  (c =? c_minus)%N = false /\ (c =? c_plus)%N = false /\
  (c =? c_under)%N = false /\ (c =? c_comma)%N = false /\
  Py.isspace_c c = false.
Proof.
  intros H.
  assert (negb ((c =? c_minus) || (c =? c_plus) || (c =? c_under) ||
                (c =? c_comma) || Py.isspace_c c)%N = true) as E.
  { revert c H. apply decimal_forall. by vm_compute. }
  apply negb_true_iff in E. repeat (apply orb_false_iff in E as [E ?]). done.
Qed.

Lemma digit_value_range c : 0 <= Py.digit_value c <= 9.
Proof.
  unfold Py.digit_value, Py.decimal.
  destruct (Py.decimal_in Py.decimal_zeros c) as [d|] eqn:E; [|lia].
  apply decimal_in_spec in E as (z & _ & H1 & H2 & ->). lia.
Qed.

Section Strip.
Variable p : N -> bool.

Lemma lstrip_app_space w s :
  all_chars p w = true -> Py.lstrip_of p (w ++ s) = Py.lstrip_of p s.
Proof.
  induction w as [|c w IH]; simpl; [done|].
  intros [Hc Hw]%andb_true_iff. rewrite Hc. auto.
Qed.

Lemma lstrip_head s : head_is p s = false -> Py.lstrip_of p s = s.
Proof. destruct s as [|c r]; simpl; [done|]. by intros ->. Qed.

Lemma lstrip_all_space w : all_chars p w = true -> Py.lstrip_of p w = [].
Proof.
  intros H. rewrite <- (app_empty_r w). by rewrite lstrip_app_space.
Qed.

(** What is removed on the left is in the class, and the removal stops at
    a character that is not. *)
Lemma lstrip_split s :
  exists w, all_chars p w = true /\ s = w ++ Py.lstrip_of p s /\
            head_is p (Py.lstrip_of p s) = false.
Proof.
  induction s as [|c r (w & Hw & Hr & Hh)]; simpl.
  - by exists [].
  - destruct (p c) eqn:Hc.
    + exists (c :: w). simpl. rewrite Hc, Hw. split; [done|].
      split; [by rewrite <- Hr | done].
    + exists []. simpl. by rewrite Hc.
Qed.

Lemma rstrip_all_space w : all_chars p w = true -> Py.rstrip_of p w = [].
Proof.
  induction w as [|c w IH]; simpl; [done|].
  intros [Hc Hw]%andb_true_iff. by rewrite IH, Hc.
Qed.

Lemma rstrip_app_space s w :
  all_chars p w = true -> Py.rstrip_of p (s ++ w) = Py.rstrip_of p s.
Proof.
  intros Hw. induction s as [|c r IH]; simpl.
  - by apply rstrip_all_space.
  - by rewrite IH.
Qed.

Lemma rstrip_no_space t :
  all_chars (fun c => negb (p c)) t = true -> Py.rstrip_of p t = t.
Proof.
  induction t as [|c r IH]; simpl; [done|].
  intros [Hc Hr]%andb_true_iff. rewrite (IH Hr).
  apply negb_true_iff in Hc. rewrite Hc. by destruct r.
Qed.

Lemma rstrip_empty_inv s : Py.rstrip_of p s = [] -> all_chars p s = true.
Proof.
  induction s as [|c r IH]; simpl; [done|].
  destruct (Py.rstrip_of p r) eqn:E; [|discriminate].
  destruct (p c) eqn:Hc; [|discriminate].
  intros _. by rewrite IH.
Qed.

Lemma strip_empty_iff s : Py.strip_of p s = [] <-> all_chars p s = true.
Proof.
  unfold Py.strip_of. split.
  - intros H%rstrip_empty_inv.
    destruct (lstrip_split s) as (w & Hw & Hs & Hh).
    destruct (Py.lstrip_of p s) as [|c r] eqn:E.
    + rewrite Hs, app_empty_r. done.
    + simpl in H, Hh. rewrite Hh in H. discriminate.
  - intros H. by rewrite lstrip_all_space.
Qed.

(** Stripping a padded body whose two ends are not in the class gives the
    body back. *)
Lemma strip_padded w1 body w2 :
  all_chars p w1 = true -> all_chars p w2 = true ->
  head_is p body = false -> Py.rstrip_of p body = body -> body <> [] ->
  Py.strip_of p (w1 ++ body ++ w2) = body.
Proof.
  intros H1 H2 Hh Hr Hne. unfold Py.strip_of.
  rewrite lstrip_app_space by done.
  rewrite lstrip_head by (by destruct body).
  rewrite rstrip_app_space by done. done.
Qed.

(** A string with no character of the class is left as it is. *)
Lemma strip_no_space t :
  all_chars (fun c => negb (p c)) t = true -> Py.strip_of p t = t.
Proof.
  intros H. unfold Py.strip_of. rewrite lstrip_head.
  - by apply rstrip_no_space.
  - destruct t as [|c r]; [done|]. simpl in *.
    apply andb_true_iff in H as [Hc _]. by apply negb_true_iff.
Qed.
End Strip.

(** ** Integer literals *)

Lemma all_chars_impl (p q : N -> bool) s :
  (forall c, p c = true -> q c = true) ->
  all_chars p s = true -> all_chars q s = true.
Proof.
  intros Hpq. induction s as [|c r IH]; simpl; [done|].
  intros [Hc Hr]%andb_true_iff. rewrite (Hpq _ Hc). auto.
Qed.

Lemma isdigit_not_sign c :
  Py.isdecimal c = true ->
  (c =? c_plus)%N = false /\ (c =? c_minus)%N = false /\ (c =? c_under)%N = false.
Proof. intros H. by destruct (digit_not_sign c H) as (? & ? & ? & _). Qed.

Lemma int_digits_all_digits ds acc cnt :
  all_digits ds = true ->
  Py.int_digits acc cnt false ds
  = if (cnt + N.of_nat (length ds) <=? Py.int_max_str_digits)%N
    then Some (acc * 10 ^ Z.of_nat (length ds) + decimal_value ds)
    else None.
Proof.
  revert acc cnt.
  induction ds as [|c r IH]; intros acc cnt; cbn [Py.int_digits all_chars].
  - intros _. change (length (@nil N)) with 0%nat.
    rewrite N.add_0_r. destruct (_ <=? _)%N; [|done]. f_equal.
    change (decimal_value []) with 0. change (Z.of_nat 0) with 0. lia.
  - intros [Hc Hr]%andb_true_iff. rewrite Hc, (IH _ _ Hr).
    change (length (c :: r)) with (S (length r)).
    replace (cnt + 1 + N.of_nat (length r))%N
      with (cnt + N.of_nat (S (length r)))%N by lia.
    destruct (_ <=? _)%N; [|done]. f_equal.
    cbn [decimal_value].
    rewrite Nat2Z.inj_succ, Z.pow_succ_r by lia. ring.
Qed.

Lemma int_unsigned_all_digits ds :
  ds <> [] -> all_digits ds = true ->
  Py.int_unsigned ds
  = if within_limit ds then Some (decimal_value ds) else None.
Proof.
  destruct ds as [|c r]; [done|]. intros _. cbn [all_chars].
  intros [Hc Hr]%andb_true_iff. unfold Py.int_unsigned, within_limit.
  rewrite Hc, (int_digits_all_digits _ _ _ Hr).
  change (length (c :: r)) with (S (length r)).
  replace (1 + N.of_nat (length r))%N with (N.of_nat (S (length r))) by lia.
  destruct (_ <=? _)%N; [|done]. by cbn [decimal_value].
Qed.

Lemma isspace_c_isspace c : Py.isspace_c c = true -> Py.isspace c = true.
Proof.
  unfold Py.isspace_c. destruct (c <? 127)%N; [|done].
  intros [H|H]%orb_true_iff; unfold Py.isspace.
  - apply andb_true_iff in H as [-> ->]. done.
  - apply N.eqb_eq in H as ->. done.
Qed.

(** A sign followed by digits holds no whitespace. *)
Lemma signed_digits_no_space sign ds :
  is_sign sign = true -> ds <> [] -> all_digits ds = true ->
  all_chars (fun c => negb (Py.isspace c)) (sign ++ ds) = true /\
  sign ++ ds <> [].
Proof.
  intros Hs Hne Hd. split.
  - rewrite all_chars_app. apply andb_true_iff. split.
    + unfold is_sign in Hs.
      repeat (apply orb_true_iff in Hs as [Hs|Hs]);
        apply str_eqb_eq in Hs as ->; reflexivity.
    + eapply all_chars_impl; [|exact Hd].
      intros c Hc. by rewrite (isdigit_not_space _ Hc).
  - destruct sign; simpl; [done | discriminate].
Qed.

(** [int] on an optional sign followed by digits. *)
Lemma int_signed_digits sign ds :
  is_sign sign = true -> ds <> [] -> all_digits ds = true ->
  Py.int (sign ++ ds)
  = if within_limit ds then Some (sign_factor sign * decimal_value ds)
    else None.
Proof.
  intros Hs Hne Hd.
  destruct (signed_digits_no_space sign ds Hs Hne Hd) as [Hns _].
  unfold Py.int. rewrite strip_no_space.
  2:{ eapply all_chars_impl; [|exact Hns]. intros c Hc. simpl in Hc.
      apply negb_true_iff in Hc. apply negb_true_iff.
      destruct (Py.isspace_c c) eqn:E; [|done].
      apply isspace_c_isspace in E. congruence. }
  pose proof (int_unsigned_all_digits ds Hne Hd) as Hu.
  unfold is_sign in Hs. rewrite !orb_true_iff, !str_eqb_eq in Hs.
  destruct Hs as [[-> | ->] | ->]; lit; cbn [app].
  - replace (sign_factor []) with 1 by reflexivity.
    destruct ds as [|c r]; [done|]. cbn [all_chars] in Hd.
    apply andb_true_iff in Hd as [Hc _].
    destruct (isdigit_not_sign c Hc) as (-> & -> & _). rewrite Hu.
    destruct (within_limit _); [f_equal; lia | done].
  - replace (sign_factor [c_plus]) with 1 by reflexivity.
    change (c_plus =? c_plus)%N with true. cbn iota. rewrite Hu.
    destruct (within_limit _); [f_equal; lia | done].
  - replace (sign_factor [c_minus]) with (-1) by reflexivity.
    change (c_minus =? c_plus)%N with false.
    change (c_minus =? c_minus)%N with true. cbn iota. rewrite Hu.
    destruct (within_limit _); [simpl; f_equal; lia | done].
Qed.

(** Stripping an integer-looking token leaves the sign and the digits. *)
Lemma strip_int_token w1 sign ds w2 :
  int_token w1 sign ds w2 = true ->
  Py.strip (w1 ++ sign ++ ds ++ w2) = sign ++ ds /\
  sign ++ ds <> [] /\
  Py.int (sign ++ ds)
  = if within_limit ds then Some (sign_factor sign * decimal_value ds)
    else None.
Proof.
  unfold int_token. rewrite !andb_true_iff, negb_true_iff, str_eqb_neq.
  intros [[[[H1 Hs] Hne] Hd] H2].
  destruct (signed_digits_no_space sign ds Hs Hne Hd) as [Hns Hb].
  split; [|split; [done | by apply int_signed_digits]].
  replace (w1 ++ sign ++ ds ++ w2) with (w1 ++ (sign ++ ds) ++ w2)
    by (by rewrite app_assoc_string).
  apply strip_padded; try done.
  - destruct (sign ++ ds) as [|c r]; [done|]. simpl in *.
    apply andb_true_iff in Hns as [Hc _]. by apply negb_true_iff.
  - by apply rstrip_no_space.
Qed.

(** [parse_element] with the test for the empty text as a boolean. *)
Lemma parse_element_unfold x :
  parse_element x
  = if str_eqb (Py.strip x) [] then None
    else match Py.int (Py.strip x) with
         | Some n => Some (EInt n)
         | None => Some (EStr (Py.strip x))
         end.
Proof. unfold parse_element. by destruct (Py.strip x). Qed.

Lemma parse_element_none_iff x : parse_element x = None <-> Py.strip x = [].
Proof.
  unfold parse_element.
  destruct (Py.strip x) as [|c r]; [done|].
  split; [|done]. by destruct (Py.int (c :: r)).
Qed.

Lemma parse_element_int x n :
  Py.strip x <> [] -> Py.int (Py.strip x) = Some n ->
  parse_element x = Some (EInt n).
Proof.
  unfold parse_element. destruct (Py.strip x) as [|c r]; [done|].
  by intros _ ->.
Qed.

Lemma parse_element_str x :
  Py.strip x <> [] -> Py.int (Py.strip x) = None ->
  parse_element x = Some (EStr (Py.strip x)).
Proof.
  unfold parse_element. destruct (Py.strip x) as [|c r]; [done|].
  by intros _ ->.
Qed.

(** C3. [parse_element] never raises.  It gives no value exactly when
    the text is whitespace only, which is when the stripped text is
    empty; otherwise it gives the integer whenever the integer
    conversion of the stripped text succeeds, and the stripped text
    itself when that conversion fails.  On an integer-looking token
    (whitespace padding, an optional sign, decimal digits) the integer
    is the sign times the positional value of the digits as long as the
    digits number at most [Py.int_max_str_digits]; with more digits the
    conversion fails and the token is kept as the string of its sign
    and digits. *)
Theorem parse_element_total (x : pystr) :
  (parse_element x = None <-> Py.strip x = []) /\
  (parse_element x = None <-> all_space x = true) /\
  (forall n, Py.strip x <> [] -> Py.int (Py.strip x) = Some n ->
     parse_element x = Some (EInt n)) /\
  (Py.strip x <> [] -> Py.int (Py.strip x) = None ->
     parse_element x = Some (EStr (Py.strip x))) /\
  (forall w1 sign ds w2, int_token w1 sign ds w2 = true ->
     x = w1 ++ sign ++ ds ++ w2 ->
     parse_element x
     = if within_limit ds
       then Some (EInt (sign_factor sign * decimal_value ds))
       else Some (EStr (sign ++ ds))).
Proof.
  split; [apply parse_element_none_iff|].
  split; [rewrite parse_element_none_iff; apply strip_empty_iff|].
  split; [apply parse_element_int|]. split; [apply parse_element_str|].
  intros w1 sign ds w2 Htok ->.
  destruct (strip_int_token _ _ _ _ Htok) as (Hs & Hne & Hi).
  destruct (within_limit ds).
  - apply parse_element_int; rewrite Hs; done.
  - rewrite parse_element_str; rewrite Hs; done.
Qed.

Lemma parse_element_total_witness :
  parse_element (u "  -42 ") = Some (EInt (-42)) /\
  parse_element (160%N :: u "٤٢") = Some (EInt 42) /\
  parse_element (u " x1 ") = Some (EStr (u "x1")).
Proof.
  split; [|split].
  - destruct (parse_element_total (u "  -42 ")) as (_ & _ & _ & _ & Htok).
    exact (Htok (u "  ") (u "-") (u "42") (u " ") eq_refl eq_refl).
  - destruct (parse_element_total (160%N :: u "٤٢")) as (_ & _ & _ & _ & Htok).
    exact (Htok [160%N] [] (u "٤٢") [] eq_refl eq_refl).
  - destruct (parse_element_total (u " x1 ")) as (_ & _ & _ & Hstr & _).
    apply Hstr; [discriminate | reflexivity].
Defined.

(** A token of 4301 digits is integer-looking, and [parse_element] keeps
    it as a string. *)
Lemma parse_element_long_token :
  int_token [] [] (repeat 49%N 4301) [] = true /\
  parse_element ([] ++ [] ++ repeat 49%N 4301 ++ [])
  = Some (EStr (repeat 49%N 4301)) /\
  parse_element ([] ++ [] ++ repeat 49%N 4301 ++ [])
  <> Some (EInt (sign_factor [] * decimal_value (repeat 49%N 4301))).
Proof.
  assert (parse_element ([] ++ [] ++ repeat 49%N 4301 ++ [])
          = Some (EStr (repeat 49%N 4301))) as E by (by vm_compute).
  split; [by vm_compute|]. split; [done|]. by rewrite E.
Qed.

(** ** Splitting and the set parser *)

Lemma split_nonempty sep s : Py.split sep s <> [].
Proof.
  destruct s as [|c r]; simpl; [done|].
  destruct ((c =? sep)%N); [done|]. by destruct (Py.split sep r).
Qed.

(** Joining two texts with the separator concatenates their pieces. *)
Lemma split_app sep a b :
  Py.split sep (a ++ (sep :: b)) = (Py.split sep a ++ Py.split sep b).
Proof.
  induction a as [|c r IH]; simpl.
  - by rewrite N.eqb_refl.
  - rewrite IH. destruct ((c =? sep)%N); [done|].
    pose proof (split_nonempty sep r). by destruct (Py.split sep r).
Qed.

Lemma split_blank text :
  blank_text text = true ->
  Forall (fun part => all_space part = true) (Py.split c_comma text).
Proof.
  unfold blank_text. induction text as [|c r IH]; simpl.
  - intros _. by repeat constructor.
  - intros [Hc Hr]%andb_true_iff. specialize (IH Hr).
    destruct ((c =? c_comma)%N) eqn:Ec; [by constructor|].
    simpl in Hc. pose proof (split_nonempty c_comma r).
    destruct (Py.split c_comma r) as [|p ps]; [done|].
    inversion IH as [|? ? Hp Hps]; subst. constructor; [|done].
    simpl. by rewrite Hc, Hp.
Qed.

(** What the loop of [parse_set] has collected after a list of pieces. *)
Lemma elem_of_parse_set_fold parts (acc : gset element) e :
  e ∈ foldl parse_set_step acc parts <->
  e ∈ acc \/ exists part, part ∈ parts /\ parse_element part = Some e.
Proof.
  revert acc. induction parts as [|p parts IH]; intros acc; simpl.
  - split; [by left|]. intros [?|(part & Hin & _)]; [done|].
    by apply elem_of_nil in Hin.
  - rewrite IH. unfold parse_set_step at 1.
    destruct (parse_element p) as [el|] eqn:Hp.
    + rewrite elem_of_union, elem_of_singleton. split.
      * intros [[?| ->]|(part & Hin & Hpart)]; [by left | | ].
        -- right. exists p. split; [apply list_elem_of_here | done].
        -- right. exists part. split; [by apply list_elem_of_further | done].
      * intros [?|(part & Hin & Hpart)]; [by left; left|].
        apply elem_of_cons in Hin as [->|Hin].
        -- left; right. congruence.
        -- right. by exists part.
    + split.
      * intros [?|(part & Hin & Hpart)]; [by left|].
        right. exists part. split; [by apply list_elem_of_further | done].
      * intros [?|(part & Hin & Hpart)]; [by left|].
        apply elem_of_cons in Hin as [->|Hin]; [congruence|].
        right. by exists part.
Qed.

Lemma elem_of_parse_set text e :
  e ∈ parse_set text <->
  exists part, part ∈ Py.split c_comma text /\ parse_element part = Some e.
Proof.
  unfold parse_set. rewrite elem_of_parse_set_fold.
  split; [intros [H|H]; [by apply not_elem_of_empty in H | done] | by right].
Qed.

Lemma parse_set_app a b : parse_set (a ++ (c_comma :: b)) = parse_set a ∪ parse_set b.
Proof.
  apply set_eq. intros e.
  rewrite elem_of_union, !elem_of_parse_set, split_app.
  setoid_rewrite elem_of_app. naive_solver.
Qed.

(** C4. [parse_set] collects exactly the values of the comma-separated
    pieces that parse to a value: its elements are the distinct values
    among those of the pieces, each of them once, however often a piece
    is repeated; the order in which the pieces are inserted does not
    matter, repeating the whole text adds nothing, and "1,1,2" gives the
    two-element set {1, 2}. *)
Theorem parse_set_unique (text : pystr) :
  (forall e, e ∈ parse_set text <->
     exists part, part ∈ Py.split c_comma text /\ parse_element part = Some e) /\
  elements (parse_set text)
    ≡ₚ remove_dups (omap parse_element (Py.split c_comma text)) /\
  (forall parts, parts ≡ₚ Py.split c_comma text ->
     foldl parse_set_step ∅ parts = parse_set text) /\
  parse_set (text ++ u "," ++ text) = parse_set text /\
  parse_set (u "1,1,2") = {[ EInt 1; EInt 2 ]} /\
  size (parse_set (u "1,1,2")) = 2%nat.
Proof.
  split; [intros e; apply elem_of_parse_set|].
  split.
  { apply NoDup_Permutation; [apply NoDup_elements | apply NoDup_remove_dups|].
    intros e. rewrite elem_of_elements, elem_of_remove_dups, list_elem_of_omap.
    apply elem_of_parse_set. }
  split; [|split; [|split]].
  - intros parts Hperm. apply set_eq. intros e.
    rewrite elem_of_parse_set, elem_of_parse_set_fold.
    setoid_rewrite Hperm. split; [|by right].
    intros [H|H]; [by apply not_elem_of_empty in H | done].
  - change (u "," ++ text) with (c_comma :: text).
    rewrite parse_set_app. apply set_eq. intros e. rewrite elem_of_union. tauto.
  - by vm_compute.
  - by vm_compute.
Qed.

Lemma parse_set_unique_witness :
  foldl parse_set_step ∅ [u "2"; u "1"; u "1"] = parse_set (u "1,1,2").
Proof.
  destruct (parse_set_unique (u "1,1,2")) as (_ & _ & Hperm & _).
  apply Hperm. change (Py.split c_comma (u "1,1,2")) with [u "1"; u "1"; u "2"].
  apply Permutation_cons_append.
Defined.

(** C10. A text made of commas and whitespace only parses to the empty
    set: every piece strips to the empty string and parses to no value. *)
Theorem parse_set_blank (text : pystr) :
  blank_text text = true ->
  Forall (fun part => Py.strip part = [] /\ parse_element part = None)
    (Py.split c_comma text) /\
  parse_set text = ∅.
Proof.
  intros Hb. pose proof (split_blank text Hb) as Hparts.
  assert (Forall (fun part => Py.strip part = [] /\ parse_element part = None)
            (Py.split c_comma text)) as Hnone.
  { eapply Forall_impl; [exact Hparts|]. intros part Hp. simpl in Hp.
    assert (Py.strip part = []) as E by (by apply strip_empty_iff).
    split; [done|]. by apply parse_element_none_iff. }
  split; [done|].
  apply set_eq. intros e. rewrite elem_of_parse_set. split.
  - intros (part & Hin & Hpart).
    rewrite Forall_forall in Hnone. destruct (Hnone _ Hin) as [_ Hn]. congruence.
  - intros H. by apply not_elem_of_empty in H.
Qed.

Lemma parse_set_blank_witness :
  parse_set [] = ∅ /\ parse_set (u " ") = ∅ /\ parse_set (u ",,, ") = ∅ /\
  parse_set [12288%N; c_comma; 160%N; 9%N] = ∅.
Proof.
  split; [|split; [|split]].
  - apply (parse_set_blank []). reflexivity.
  - apply (parse_set_blank (u " ")). reflexivity.
  - apply (parse_set_blank (u ",,, ")). reflexivity.
  - apply (parse_set_blank [12288%N; c_comma; 160%N; 9%N]). reflexivity.
Defined.

(** ** The range pattern *)

Section Pattern.
Variable p : N -> bool.

Lemma span_app a b :
  all_chars p a = true -> head_is p b = false -> span p (a ++ b) = (a, b).
Proof.
  intros Ha Hb. induction a as [|c r IH]; simpl.
  - destruct b as [|c r]; [done|]. simpl in *. by rewrite Hb.
  - simpl in Ha. apply andb_true_iff in Ha as [Hc Hr].
    by rewrite Hc, (IH Hr).
Qed.

Lemma span_inv s a b :
  span p s = (a, b) ->
  s = a ++ b /\ all_chars p a = true /\ head_is p b = false.
Proof.
  revert a b. induction s as [|c r IH]; intros a b; simpl.
  - by intros [= <- <-].
  - destruct (p c) eqn:Hc.
    + destruct (span p r) as [a' b'] eqn:E. intros [= <- <-].
      destruct (IH _ _ eq_refl) as (-> & Ha & Hb). simpl. by rewrite Hc, Ha.
    + intros [= <- <-]. simpl. by rewrite Hc.
Qed.
End Pattern.

Lemma head_is_app_space (q : N -> bool) w t :
  (forall c, Py.isspace c = true -> q c = false) ->
  all_space w = true -> head_is q t = false -> head_is q (w ++ t) = false.
Proof.
  intros Hq Hw Ht. destruct w as [|c r]; simpl; [done|].
  simpl in Hw. apply andb_true_iff in Hw as [Hc _]. auto.
Qed.

Lemma isspace_not_digit c : Py.isspace c = true -> Py.isdecimal c = false.
Proof.
  intros H. destruct (Py.isdecimal c) eqn:E; [|done].
  apply isdigit_not_space in E. congruence.
Qed.

Lemma int_group_head g rest :
  int_group g -> head_is Py.isspace (g ++ rest) = false.
Proof.
  intros (sign & ds & -> & Hs & Hne & Hd).
  destruct Hs as [-> | ->]; simpl; [|done].
  destruct ds as [|c r]; [done|]. simpl in *.
  apply andb_true_iff in Hd as [Hc _]. by apply isdigit_not_space.
Qed.

Lemma match_int_group_app g rest :
  int_group g -> head_is Py.isdecimal rest = false ->
  match_int_group (g ++ rest) = Some (g, rest).
Proof.
  intros (sign & ds & -> & Hs & Hne & Hd) Hrest. unfold match_int_group.
  destruct Hs as [-> | ->]; lit; cbn [app].
  - destruct ds as [|c r]; [done|].
    assert (Py.isdecimal c = true) as Hc.
    { cbn [all_chars] in Hd. by apply andb_true_iff in Hd as [? _]. }
    destruct (isdigit_not_sign c Hc) as (_ & Hm & _).
    cbn [app]. rewrite Hm. change (c :: r ++ rest) with ((c :: r) ++ rest).
    by rewrite (span_app _ _ _ Hd Hrest).
  - change (c_minus =? c_minus)%N with true. cbn iota.
    rewrite (span_app _ _ _ Hd Hrest). by destruct ds.
Qed.

Lemma match_int_group_inv s g rest :
  match_int_group s = Some (g, rest) ->
  int_group g /\ s = g ++ rest /\ head_is Py.isdecimal rest = false.
Proof.
  unfold match_int_group.
  destruct s as [|c r]; [done|].
  destruct (N.eqb_spec c c_minus) as [-> | Hc].
  - destruct (span Py.isdecimal r) as [ds rest'] eqn:E.
    destruct ds as [|d ds]; [done|].
    intros [= <- <-]. apply span_inv in E as (-> & Hd & Hr).
    split; [|done]. exists [c_minus], (d :: ds). by auto.
  - destruct (span Py.isdecimal (c :: r)) as [ds rest'] eqn:E.
    destruct ds as [|d ds]; [done|].
    intros [= <- <-]. apply span_inv in E as (E & Hd & Hr).
    split; [|done]. exists [], (d :: ds). by auto.
Qed.

Lemma range_fullmatch_complete txt g1 g2 :
  range_pattern txt g1 g2 -> range_fullmatch txt = Some (g1, g2).
Proof.
  intros (w0 & w1 & w2 & w3 & H0 & H1 & H2 & H3 & Hg1 & Hg2 & ->).
  unfold range_fullmatch.
  rewrite lstrip_app_space by done.
  rewrite lstrip_head by (by apply int_group_head).
  rewrite match_int_group_app; [|done|].
  2:{ apply head_is_app_space; [apply isspace_not_digit | done | done]. }
  simpl. rewrite lstrip_app_space by done. simpl.
  rewrite lstrip_app_space by done.
  rewrite lstrip_head by (by apply int_group_head).
  rewrite match_int_group_app; [|done|].
  2:{ rewrite <- (app_empty_r w3).
      apply head_is_app_space; [apply isspace_not_digit | done | done]. }
  simpl. by rewrite lstrip_all_space.
Qed.

Lemma range_fullmatch_sound txt g1 g2 :
  range_fullmatch txt = Some (g1, g2) -> range_pattern txt g1 g2.
Proof.
  unfold range_fullmatch.
  destruct (lstrip_split Py.isspace txt) as (w0 & H0 & Htxt & _).
  destruct (match_int_group (Py.lstrip txt)) as [[ga s1]|] eqn:E1; [|done].
  simpl. apply match_int_group_inv in E1 as (Hg1 & E1 & _).
  destruct (lstrip_split Py.isspace s1) as (w1 & H1 & Hs1 & _).
  destruct (Py.lstrip s1) as [|c s2]; [done|].
  destruct (N.eqb_spec c c_minus) as [-> |]; [|done].
  destruct (lstrip_split Py.isspace s2) as (w2 & H2 & Hs2 & _).
  destruct (match_int_group (Py.lstrip s2)) as [[gb s3]|] eqn:E2; [|done].
  simpl. apply match_int_group_inv in E2 as (Hg2 & E2 & _).
  destruct (Py.lstrip s3) eqn:E3; [|done].
  intros [= -> ->].
  destruct (lstrip_split Py.isspace s3) as (w3 & H3 & Hs3 & _).
  rewrite E3, app_empty_r in Hs3.
  exists w0, w1, w2, s3. repeat split; try done; [by subst s3|].
  rewrite Htxt, E1, Hs1 at 1. simpl. by rewrite Hs2, E2 at 1.
Qed.

(** The matcher decides the pattern, and the groups are determined. *)
Lemma range_fullmatch_iff txt g1 g2 :
  range_fullmatch txt = Some (g1, g2) <-> range_pattern txt g1 g2.
Proof. split; [apply range_fullmatch_sound | apply range_fullmatch_complete]. Qed.

(** ** The universal set parser *)

Lemma filter_all_chars (p : N -> bool) s :
  all_chars p s = true -> List.filter p s = s.
Proof.
  induction s as [|c r IH]; simpl; [done|].
  intros [Hc Hr]%andb_true_iff. by rewrite Hc, IH.
Qed.

(** The digits and the value of a group [sign ++ ds]. *)
Lemma int_group_parts sign ds :
  sign = [] \/ sign = u "-" -> ds <> [] -> all_digits ds = true ->
  group_digits (sign ++ ds) = ds /\
  group_value (sign ++ ds) = sign_factor sign * decimal_value ds.
Proof.
  intros Hs Hne Hd. unfold group_value, group_digits.
  destruct Hs as [-> | ->]; lit; cbn [app].
  - rewrite (filter_all_chars _ _ Hd). split; [done|].
    destruct ds as [|c r]; [done|]. cbn [all_chars] in Hd.
    apply andb_true_iff in Hd as [Hc _].
    destruct (isdigit_not_sign c Hc) as (_ & Hm & _).
    cbn [head_is]. rewrite N.eqb_sym, Hm. done.
  - cbn [List.filter]. change (Py.isdecimal c_minus) with false. cbn iota.
    rewrite (filter_all_chars _ _ Hd). done.
Qed.

(** The conversion of a group: its value, or [ValueError] when the
    digits are too many. *)
Lemma int_group_int g :
  int_group g ->
  Py.int g
  = if within_limit (group_digits g) then Some (group_value g) else None.
Proof.
  intros (sign & ds & -> & Hs & Hne & Hd).
  destruct (int_group_parts sign ds Hs Hne Hd) as [-> ->].
  apply int_signed_digits; [|done..].
  by destruct Hs as [-> | ->].
Qed.

Lemma elem_of_set_range start stop e :
  e ∈ set_range start stop <-> exists n, e = EInt n /\ start <= n < stop.
Proof.
  unfold set_range. rewrite elem_of_list_to_set, list_elem_of_fmap.
  setoid_rewrite elem_of_seqZ.
  split; intros (n & -> & Hn); exists n; (split; [done | lia]).
Qed.

(** [parse_universal] on a text that matches the range pattern. *)
Lemma parse_universal_range text g1 g2 :
  range_fullmatch (Py.strip text) = Some (g1, g2) ->
  parse_universal text
  = if within_limit (group_digits g1) && within_limit (group_digits g2)
    then Some (set_range (Z.min (group_value g1) (group_value g2))
                 (Z.max (group_value g1) (group_value g2) + 1))
    else None.
Proof.
  intros E. unfold parse_universal. rewrite E.
  apply range_fullmatch_sound in E
    as (? & ? & ? & ? & _ & _ & _ & _ & Hg1 & Hg2 & _).
  rewrite (int_group_int _ Hg1), (int_group_int _ Hg2).
  destruct (within_limit (group_digits g1)); [|done].
  destruct (within_limit (group_digits g2)); [|done]. simpl.
  destruct (Z.leb_spec (group_value g1) (group_value g2)).
  - by rewrite Z.min_l, Z.max_r by lia.
  - by rewrite Z.min_r, Z.max_l by lia.
Qed.




(** C5. On a range text whose upper bound has 4301 digits the pattern
    matches, with the two bounds as groups, and [parse_universal] does
    not return the range: the conversion of the bound raises
    [ValueError], which nothing catches.  The same token alone is kept
    as a string by [parse_element], which catches that exception. *)
Theorem parse_universal_long_bound :
  range_pattern (Py.strip (u "1-" ++ repeat 49%N 4301))
    (u "1") (repeat 49%N 4301) /\
  parse_universal (u "1-" ++ repeat 49%N 4301) = None /\
  parse_element (repeat 49%N 4301) = Some (EStr (repeat 49%N 4301)).
Proof.
  split; [apply range_fullmatch_iff|split]; by vm_compute.
Qed.

(** ** Sorting for display *)

Section SortedFacts.
Context {A : Type} (lt : A -> A -> option bool).

Hypothesis lt_asym : forall x y, lt x y = Some true -> lt y x = Some false.

Lemma insert_stable_perm x l r : insert_stable lt x l = Some r -> r ≡ₚ x :: l.
Proof.
  revert r. induction l as [|y l IH]; intros r; simpl.
  - by intros [= <-].
  - destruct (lt y x) as [[]|]; simpl; [| by intros [= <-] | done].
    destruct (insert_stable lt x l) as [r'|]; simpl; [|done].
    intros [= <-]. rewrite (IH _ eq_refl). apply Permutation_swap.
Qed.

Lemma sorted_perm l r : sorted lt l = Some r -> r ≡ₚ l.
Proof.
  revert r. induction l as [|x l IH]; intros r; simpl.
  - by intros [= <-].
  - destruct (sorted lt l) as [l'|]; simpl; [|done].
    intros H%insert_stable_perm. by rewrite H, (IH _ eq_refl).
Qed.

Lemma insert_stable_Sorted x l r :
  Sorted (not_after lt) l -> insert_stable lt x l = Some r -> Sorted (not_after lt) r.
Proof.
  revert r. induction l as [|y l IH]; intros r Hl; simpl.
  - intros [= <-]. by repeat constructor.
  - destruct (lt y x) as [[]|] eqn:Hyx; simpl; [| |done].
    + destruct (insert_stable lt x l) as [r'|] eqn:E; simpl; [|done].
      intros [= <-]. inversion Hl as [|? ? Hl' Hhd]; subst.
      constructor; [by apply IH|].
      destruct l as [|z l]; simpl in E.
      * injection E as <-. constructor. by apply lt_asym.
      * destruct (lt z x) as [[]|]; simpl in E; [| |done].
        -- destruct (insert_stable lt x l); simpl in E; [|done].
           injection E as <-. constructor. by inversion Hhd.
        -- injection E as <-. constructor. by apply lt_asym.
    + intros [= <-]. constructor; [done|]. by constructor.
Qed.

Lemma sorted_Sorted l r : sorted lt l = Some r -> Sorted (not_after lt) r.
Proof.
  revert r. induction l as [|x l IH]; intros r; simpl.
  - intros [= <-]. constructor.
  - destruct (sorted lt l) as [l'|]; simpl; [|done].
    apply insert_stable_Sorted. by apply IH.
Qed.

(** The sort returns when the comparisons it can make return. *)
Lemma sorted_is_Some (P : A -> Prop) l :
  (forall x y, P x -> P y -> is_Some (lt x y)) ->
  Forall P l -> is_Some (sorted lt l).
Proof.
  intros Hlt. induction l as [|x l IH]; intros Hl; simpl; [done|].
  inversion Hl as [|? ? Hx Hl']; subst.
  destruct (IH Hl') as [l' E]. rewrite E. simpl.
  assert (Forall P l') as Hl''.
  { apply sorted_perm in E. by rewrite E. }
  clear E IH Hl Hl'. induction l' as [|y l' IH]; simpl; [done|].
  inversion Hl'' as [|? ? Hy Hl3]; subst.
  destruct (Hlt y x Hy Hx) as [[] ->]; simpl; [|done].
  destruct (IH Hl3) as [r ->]. done.
Qed.
End SortedFacts.

Lemma same_kind_Forall b l :
  same_kind b l = true <-> Forall (fun e => is_int e = b) l.
Proof.
  unfold same_kind. induction l as [|x l IH]; simpl.
  - split; [constructor | done].
  - by rewrite andb_true_iff, Bool.eqb_true_iff, IH, Forall_cons.
Qed.

Lemma homogeneous_kind l :
  homogeneous l = true <-> exists b, Forall (fun e => is_int e = b) l.
Proof.
  unfold homogeneous. rewrite orb_true_iff, !same_kind_Forall. split.
  - intros [H|H]; eauto.
  - intros [[] H]; auto.
Qed.

(** The order of strings. *)
Lemma str_compare_antisym a b : str_compare a b = CompOpp (str_compare b a).
Proof.
  revert b. induction a as [|x a IH]; intros [|y b]; simpl; try done.
  rewrite (N.compare_antisym x y).
  destruct (x ?= y)%N; simpl; [apply IH | done | done].
Qed.

Lemma str_compare_eq a b : str_compare a b = Eq -> a = b.
Proof.
  revert b. induction a as [|x a IH]; intros [|y b]; simpl; try done.
  destruct (N.compare_spec x y) as [->| |]; try done.
  intros H. f_equal. by apply IH.
Qed.

Lemma str_compare_lt_trans a b c :
  str_compare a b = Lt -> str_compare b c = Lt -> str_compare a c = Lt.
Proof.
  revert b c. induction a as [|x a IH]; intros [|y b] [|z c]; simpl; try done.
  destruct (N.compare_spec x y) as [->|Hxy|Hxy]; [| |done].
  - destruct (N.compare_spec y z) as [->|Hyz|Hyz]; [apply IH | done | done].
  - intros _. destruct (N.compare_spec y z) as [->|Hyz|Hyz]; [| |done].
    + intros _. destruct (N.compare_spec x z); [lia | done | lia].
    + intros _. destruct (N.compare_spec x z); [lia | done | lia].
Qed.

#[local] Instance str_le_trans : Transitive str_le.
Proof.
  intros a b c. unfold str_le. intros H1 H2.
  destruct (str_compare a b) eqn:E1; [| |done].
  - by apply str_compare_eq in E1 as ->.
  - destruct (str_compare b c) eqn:E2; [| |done].
    + apply str_compare_eq in E2 as ->. by rewrite E1.
    + by rewrite (str_compare_lt_trans _ _ _ E1 E2).
Qed.

#[local] Instance str_le_antisym : AntiSymm (=) str_le.
Proof.
  intros a b. unfold str_le. rewrite (str_compare_antisym b a).
  destruct (str_compare a b) eqn:E; simpl; try done.
  intros _ _. by apply str_compare_eq.
Qed.

Lemma string_ltb_leb a b : str_ltb b a = false -> str_le a b.
Proof.
  unfold str_le, str_ltb.
  rewrite (str_compare_antisym a b).
  by destruct (str_compare b a).
Qed.

Lemma string_ltb_asym a b : str_ltb a b = true -> str_ltb b a = false.
Proof.
  unfold str_ltb. rewrite (str_compare_antisym a b).
  by destruct (str_compare b a).
Qed.

Lemma elt_lt_asym x y : elt_lt x y = Some true -> elt_lt y x = Some false.
Proof.
  destruct x as [a|a], y as [b|b]; simpl; try done.
  - intros [= H]. f_equal. lia.
  - intros [= H]. f_equal. by apply string_ltb_asym.
Qed.

Lemma key_lt_asym x y : key_lt x y = Some true -> key_lt y x = Some false.
Proof. unfold key_lt. intros [= H]. f_equal. by apply string_ltb_asym. Qed.

Lemma not_after_elt_le x y : not_after elt_lt x y -> elt_le x y.
Proof.
  unfold not_after. destruct x as [a|a], y as [b|b]; simpl; try done.
  - intros [= H]. lia.
  - intros [= H]. by apply string_ltb_leb.
Qed.

Lemma not_after_key_le x y : not_after key_lt x y -> key_le x y.
Proof. unfold not_after, key_lt, key_le. intros [= H]. by apply string_ltb_leb. Qed.

(** [sorted] raises [TypeError] exactly on lists of mixed kinds. *)
Lemma sorted_elt_Some_homogeneous l r :
  sorted elt_lt l = Some r -> homogeneous l = true.
Proof.
  rewrite homogeneous_kind. revert r.
  induction l as [|x l IH]; intros r; simpl.
  - intros _. exists true. constructor.
  - destruct (sorted elt_lt l) as [l'|] eqn:E; simpl; [|done].
    destruct (IH _ eq_refl) as [b Hb]. apply sorted_perm in E.
    destruct l' as [|y l'].
    + apply Permutation_nil in E as ->. intros _.
      exists (is_int x). by repeat constructor.
    + simpl. destruct (elt_lt y x) as [c|] eqn:Hyx; simpl; [|done].
      intros _. exists b. constructor; [|done].
      assert (is_int y = b) as <-.
      { rewrite Forall_forall in Hb. apply Hb. rewrite <- E. by left. }
      by destruct x, y.
Qed.

Lemma sorted_elt_homogeneous_Some l :
  homogeneous l = true -> is_Some (sorted elt_lt l).
Proof.
  intros [b Hb]%homogeneous_kind.
  apply (sorted_is_Some elt_lt (fun e => is_int e = b)); [|done].
  intros [x|x] [y|y] Hx Hy; simpl in *; by eauto || congruence.
Qed.

Lemma sorted_key_Some l : is_Some (sorted key_lt l).
Proof.
  apply (sorted_is_Some key_lt (fun _ => True)).
  - intros x y _ _. unfold key_lt. eauto.
  - by apply Forall_forall.
Qed.

Lemma Sorted_weaken {A} (R1 R2 : relation A) l :
  (forall x y, R1 x y -> R2 x y) -> Sorted R1 l -> Sorted R2 l.
Proof.
  intros HR. induction 1 as [|x l Hl IH Hhd]; constructor; [done|].
  destruct Hhd; constructor; auto.
Qed.

(** No exception leaves [sort_result]: the fallback cannot raise. *)
Lemma sort_result_list_spec l :
  exists elems, sort_result_list l = Some elems /\ elems ≡ₚ l /\
    (homogeneous l = true -> Sorted elt_le elems) /\
    (homogeneous l = false ->
       sorted elt_lt l = None /\ Sorted key_le elems).
Proof.
  unfold sort_result_list.
  destruct (sorted elt_lt l) as [r|] eqn:E.
  - exists r. split; [done|]. split; [by eapply sorted_perm|].
    pose proof (sorted_elt_Some_homogeneous _ _ E) as Hh. split.
    + intros _. eapply Sorted_weaken; [apply not_after_elt_le|].
      eapply sorted_Sorted; [apply elt_lt_asym | exact E].
    + congruence.
  - destruct (sorted_key_Some l) as [r Hr]. exists r.
    split; [done|]. split; [by eapply sorted_perm|]. split.
    + intros [r' Hr']%sorted_elt_homogeneous_Some. congruence.
    + intros _. split; [done|].
      eapply Sorted_weaken; [apply not_after_key_le|].
      eapply sorted_Sorted; [apply key_lt_asym | exact Hr].
Qed.

Lemma format_set_total s : is_Some (format_set s).
Proof.
  unfold format_set. destruct (decide (s = ∅)); [done|].
  unfold sort_result.
  destruct (sort_result_list_spec (elements s)) as (elems & -> & _). done.
Qed.

Lemma format_set_nonempty s :
  s <> ∅ ->
  exists elems, elems ≡ₚ elements s /\ sort_result s = Some elems /\
    format_set s = Some (u "{" ++ Py.join (u ", ") (str <$> elems) ++ u "}").
Proof.
  intros Hne.
  destruct (sort_result_list_spec (elements s)) as (elems & He & Hperm & _).
  exists elems. split; [done|]. split; [done|].
  unfold format_set. destruct (decide (s = ∅)); [done|].
  unfold sort_result. by rewrite He.
Qed.

#[local] Instance elt_le_trans : Transitive elt_le.
Proof.
  intros [a|a] [b|b] [c|c]; simpl; try done.
  - lia.
  - apply (transitivity (R:=str_le)).
Qed.

#[local] Instance elt_le_antisym : AntiSymm (=) elt_le.
Proof.
  intros [a|a] [b|b]; simpl; try done.
  - intros. f_equal. lia.
  - intros H1 H2. f_equal. by apply (anti_symm str_le).
Qed.

Lemma homogeneous_perm l l' : l ≡ₚ l' -> homogeneous l = homogeneous l'.
Proof.
  intros Hp. apply eq_true_iff_eq. rewrite !homogeneous_kind.
  by setoid_rewrite Hp.
Qed.

(** The text shown does not depend on the order in which the set is
    iterated: elements with the same key have the same text. *)
Lemma display_order_irrelevant l l' elems elems' :
  l ≡ₚ l' ->
  sort_result_list l = Some elems -> sort_result_list l' = Some elems' ->
  str <$> elems = str <$> elems'.
Proof.
  intros Hp He He'.
  destruct (sort_result_list_spec l) as (r & Hr & Hperm & Hnat & Hkey).
  destruct (sort_result_list_spec l') as (r' & Hr' & Hperm' & Hnat' & Hkey').
  rewrite He in Hr. rewrite He' in Hr'.
  injection Hr as <-. injection Hr' as <-.
  pose proof (homogeneous_perm _ _ Hp) as Hh.
  destruct (homogeneous l) eqn:E.
  - f_equal. apply (Sorted_unique elt_le); [by apply Hnat | by apply Hnat' |].
    by rewrite Hperm, Hperm'.
  - symmetry in Hh. destruct (Hkey eq_refl) as [_ Hs].
    destruct (Hkey' Hh) as [_ Hs'].
    apply (Sorted_unique str_le).
    + eapply Sorted_fmap; [|exact Hs]. done.
    + eapply Sorted_fmap; [|exact Hs']. done.
    + by rewrite Hperm, Hperm', Hp.
Qed.

(** C9. [format_set] gives "∅" for the empty set; for any other set it
    gives the elements between braces, separated by ", ", in the order
    of [sort_result]: a rearrangement of the elements of the set that is
    in natural order when the elements are all integers or all strings,
    and in the order of their [str] texts otherwise, where the natural
    sort raises [TypeError] and the fallback is taken.  The text does not
    depend on the order in which the set is iterated, and no exception
    leaves the function. *)
Theorem format_set_ordering (s : gset element) :
  format_set ∅ = Some (u "∅") /\
  (s <> ∅ ->
   exists elems,
     elems ≡ₚ elements s /\ sort_result s = Some elems /\
     format_set s = Some (u "{" ++ Py.join (u ", ") (str <$> elems) ++ u "}") /\
     (homogeneous (elements s) = true -> Sorted elt_le elems) /\
     (homogeneous (elements s) = false ->
        sorted elt_lt (elements s) = None /\ Sorted key_le elems) /\
     (forall l elems', l ≡ₚ elements s -> sort_result_list l = Some elems' ->
        str <$> elems' = str <$> elems)) /\
  format_set {[ EInt 3; EInt 1; EInt 2 ]} = Some (u "{1, 2, 3}") /\
  format_set {[ EInt 1; EStr (u "b"); EInt 2 ]} = Some (u "{1, 2, b}").
Proof.
  split; [done|]. split; [|split; by vm_compute].
  intros Hne.
  destruct (sort_result_list_spec (elements s)) as (elems & He & Hperm & Hnat & Hkey).
  destruct (format_set_nonempty s Hne) as (elems0 & _ & He0 & Hf).
  assert (elems0 = elems) as -> by (unfold sort_result in He0; congruence).
  exists elems. split; [done|]. split; [done|]. split; [done|].
  split; [done|]. split; [done|].
  intros l elems' Hl He'. by eapply display_order_irrelevant.
Qed.

Lemma format_set_ordering_witness :
  exists elems,
    elems ≡ₚ elements ({[ EInt 1; EStr (u "b"); EInt 2 ]} : gset element) /\
    sort_result {[ EInt 1; EStr (u "b"); EInt 2 ]} = Some elems /\
    Sorted key_le elems.
Proof.
  destruct (format_set_ordering {[ EInt 1; EStr (u "b"); EInt 2 ]})
    as (_ & Hs & _).
  destruct Hs as (elems & Hperm & He & _ & _ & Hkey & _).
  { intros H. apply (f_equal elements) in H. vm_compute in H. discriminate H. }
  exists elems. split; [done|]. split; [done|].
  apply Hkey. reflexivity.
Defined.

(** ** The two-set dispatch *)

Lemma union_regions (A B : gset element) :
  A ∪ B = (A ∖ B) ∪ (B ∖ A) ∪ (A ∩ B).
Proof.
  apply set_eq. intros x.
  rewrite !elem_of_union, !elem_of_difference, elem_of_intersection.
  destruct (decide (x ∈ A)), (decide (x ∈ B)); tauto.
Qed.

Lemma highlighted_union_all (A B : gset element) :
  highlighted_union A B [u "10"; u "01"; u "11"] = (A ∖ B) ∪ (B ∖ A) ∪ (A ∩ B).
Proof.
  unfold highlighted_union, regions. rewrite !filter_cons, filter_nil. simpl.
  set_solver.
Qed.

Lemma highlighted_union_one (A B : gset element) :
  highlighted_union A B [u "10"] = A ∖ B /\
  highlighted_union A B [u "01"] = B ∖ A /\
  highlighted_union A B [u "11"] = A ∩ B.
Proof.
  unfold highlighted_union, regions. rewrite !filter_cons, !filter_nil. simpl.
  set_solver.
Qed.

(** C1. For "A ∪ B" the result is the union of the three regions
    A \ B, B \ A and A ∩ B, which are pairwise disjoint, and the
    highlighted identifiers are "10", "01" and "11": the result is the
    union of the highlighted regions.  For "A ∩ B" only "11" is
    highlighted. *)
Theorem union_partition (A B U : gset element) (cA cB : pystr) :
  let d := two_set_dispatch (u "A ∪ B") A B U cA cB in
  let d' := two_set_dispatch (u "A ∩ B") A B U cA cB in
  result d = (A ∖ B) ∪ (B ∖ A) ∪ (A ∩ B) /\
  (A ∖ B) ## (B ∖ A) /\ (A ∖ B) ## (A ∩ B) /\ (B ∖ A) ## (A ∩ B) /\
  highlight_ids d = [u "10"; u "01"; u "11"] /\
  result d = highlighted_union A B (highlight_ids d) /\
  highlight_ids d' = [u "11"] /\
  result d' = A ∩ B /\
  result d' = highlighted_union A B (highlight_ids d').
Proof.
  cbn zeta. change (result (two_set_dispatch (u "A ∪ B") A B U cA cB)) with (A ∪ B).
  change (highlight_ids (two_set_dispatch (u "A ∪ B") A B U cA cB))
    with [u "10"; u "01"; u "11"].
  change (result (two_set_dispatch (u "A ∩ B") A B U cA cB)) with (A ∩ B).
  change (highlight_ids (two_set_dispatch (u "A ∩ B") A B U cA cB)) with [u "11"].
  rewrite highlighted_union_all.
  destruct (highlighted_union_one A B) as (_ & _ & ->).
  split; [apply union_regions|].
  split; [set_solver|]. split; [set_solver|]. split; [set_solver|].
  split; [done|]. split; [apply union_regions|]. done.
Qed.

Lemma complement_dispatch (A B U : gset element) (cA cB : pystr) :
  Forall (fun '(name, operand) =>
            let d := two_set_dispatch name A B U cA cB in
            result d = U ∖ operand /\
            set1 d = U /\ set2 d = operand /\
            highlight_ids d = [u "10"] /\
            result d = set1 d ∖ set2 d /\
            dispatch_calls d = [])
         (complement_table A B).
Proof. unfold complement_table. by repeat constructor. Qed.

(** C2. For each of the four complement operations of the two-set menu
    the result is [U] minus the operand, the rendered pair is [U] first
    and the operand second, and "10" alone is highlighted: the region of
    the first rendered set outside the second, which is the result.  With
    the universal set "1-10" and A = "2, 4, 6, 8", "Complement of A" gives
    {1, 3, 5, 7, 9, 10}. *)
Theorem complement_family (A B U : gset element) (cA cB : pystr) :
  Forall (fun '(name, operand) =>
            let d := two_set_dispatch name A B U cA cB in
            result d = U ∖ operand /\
            set1 d = U /\ set2 d = operand /\
            highlight_ids d = [u "10"] /\
            result d = set1 d ∖ set2 d /\
            dispatch_calls d = [])
         (complement_table A B) /\
  (complement_table A B).*1
  = filter (fun op => Py.contains (u "Complement") op = true) two_set_menu /\
  (exists U0,
     parse_universal (u "1-10") = Some U0 /\
     result (two_set_dispatch (u "Complement of A") (parse_set (u "2, 4, 6, 8"))
               (parse_set (u "3, 4, 5, 6, 9")) U0 cA cB)
     = {[ EInt 1; EInt 3; EInt 5; EInt 7; EInt 9; EInt 10 ]}) /\
  (exists rest,
     venn_two_sets (default2 (u "Complement of A"))
     = Some (plot_venn2_local
               {[ EInt 1; EInt 2; EInt 3; EInt 4; EInt 5; EInt 6; EInt 7;
                  EInt 8; EInt 9; EInt 10 ]}
               {[ EInt 2; EInt 4; EInt 6; EInt 8 ]}
               (u "#CCCCCC") (u "#FF5733") [u "10"] (u "{1, 3, 5, 7, 9, 10}")
             :: st_write (u "Result: {1, 3, 5, 7, 9, 10}") :: rest)).
Proof.
  split; [|split; [|split]].
  - apply complement_dispatch.
  - by vm_compute.
  - eexists. split; [by vm_compute|]. by vm_compute.
  - eexists. by vm_compute.
Qed.

Ltac not_in_menu H :=
  repeat match goal with
  | |- context [str_eqb ?op ?name] =>
      destruct (str_eqb_spec op name) as [-> | _];
      [ exfalso; apply H; refine (bool_decide_unpack _ _); by vm_compute | ]
  end.

(** C7. An operation name outside the two-set menu makes the dispatch
    show the error "Unknown operation." and leave the two rendered sets
    and the result empty, with nothing highlighted; the branch then runs
    to its end: it draws the diagram of two empty sets with the result
    text "∅" and reports the empty result. *)
Theorem unknown_operation_fallback (operation : pystr)
    (A B U : gset element) (cA cB : pystr) :
  operation ∉ two_set_menu ->
  two_set_dispatch operation A B U cA cB
  = {| set1 := ∅; set2 := ∅; colors := (cA, cB); result := ∅;
       highlight_ids := [];
       dispatch_calls := [st_error (u "Unknown operation.")] |} /\
  two_set_branch operation A B U cA cB
  = Some [ st_error (u "Unknown operation.");
           plot_venn2_local ∅ ∅ cA cB [] (u "∅");
           st_info (u "Resulting set is empty (∅).") ].
Proof.
  intros Hnot.
  assert (two_set_dispatch operation A B U cA cB
          = {| set1 := ∅; set2 := ∅; colors := (cA, cB); result := ∅;
               highlight_ids := [];
               dispatch_calls := [st_error (u "Unknown operation.")] |}) as Hd.
  { unfold two_set_dispatch. not_in_menu Hnot. done. }
  split; [done|]. unfold two_set_branch. rewrite Hd. done.
Qed.

Lemma unknown_operation_fallback_witness :
  two_set_branch (u "A ∆ B") {[ EInt 1 ]} {[ EInt 2 ]} ∅ (u "#FF5733") (u "#33C1FF")
  = Some [ st_error (u "Unknown operation.");
           plot_venn2_local ∅ ∅ (u "#FF5733") (u "#33C1FF") [] (u "∅");
           st_info (u "Resulting set is empty (∅).") ].
Proof.
  apply (unknown_operation_fallback (u "A ∆ B")).
  apply (bool_decide_eq_false_1 ((u "A ∆ B") ∈ two_set_menu)). reflexivity.
Defined.

(** ** The menus *)

(** The menus do not hold sixteen operations: with eight and thirteen
    entries they hold twenty-one entries under nineteen different
    names. *)
Lemma operation_count_not_sixteen :
  ~ (length two_set_menu = 8%nat /\ length three_set_menu = 13%nat /\
     (length (two_set_menu ++ three_set_menu) = 16%nat \/
      length (remove_dups (two_set_menu ++ three_set_menu)) = 16%nat)).
Proof. intros (_ & _ & [H|H]); vm_compute in H; discriminate H. Qed.

(** The selector offers a fixed list of operations: eight for two sets
    and thirteen for three sets, twenty-one entries under nineteen
    different names, none repeated within a menu.  Each of the eight
    two-set names is handled by its own branch of the dispatch, which
    gives the result formula and the highlighted regions listed in
    [two_set_table]. *)
Lemma operation_menus_fixed :
  length two_set_menu = 8%nat /\ length three_set_menu = 13%nat /\
  length (two_set_menu ++ three_set_menu) = 21%nat /\
  length (remove_dups (two_set_menu ++ three_set_menu)) = 19%nat /\
  NoDup two_set_menu /\ NoDup three_set_menu /\
  operation_menu 2 = two_set_menu /\ operation_menu 3 = three_set_menu /\
  two_set_table.*1 = two_set_menu /\
  (forall (A B U : gset element) (cA cB : pystr),
     Forall (fun '(name, (formula, hids)) =>
               let d := two_set_dispatch name A B U cA cB in
               result d = formula A B U /\ highlight_ids d = hids /\
               dispatch_calls d = [])
            two_set_table).
Proof.
  repeat (split; [by vm_compute | ]).
  split; [refine (bool_decide_unpack _ _); by vm_compute|].
  split; [refine (bool_decide_unpack _ _); by vm_compute|].
  repeat (split; [by vm_compute | ]).
  intros A B U cA cB. unfold two_set_table. by repeat constructor.
Qed.

(** ** Validation of the universal set *)

(** No exception leaves the two-set branch. *)
Lemma two_set_branch_total operation (A B U : gset element) (cA cB : pystr) :
  is_Some (two_set_branch operation A B U cA cB).
Proof.
  unfold two_set_branch.
  destruct (format_set_total (result (two_set_dispatch operation A B U cA cB)))
    as [repr ->]. simpl.
  destruct (decide (result (two_set_dispatch operation A B U cA cB) = ∅)); [done|].
  unfold regions, region_line. simpl.
  destruct (format_set_total (A ∖ B)) as [r1 ->].
  destruct (format_set_total (B ∖ A)) as [r2 ->].
  destruct (format_set_total (A ∩ B)) as [r3 ->]. done.
Qed.

(** What the dispatch leaves behind for a complement operation. *)
Lemma complement_dispatch_record (A B U : gset element) (cA cB : pystr) :
  Forall (fun '(name, operand) =>
            exists c2,
              two_set_dispatch name A B U cA cB
              = {| set1 := U; set2 := operand; colors := (u "#CCCCCC", c2);
                   result := U ∖ operand; highlight_ids := [u "10"];
                   dispatch_calls := [] |})
         (complement_table A B).
Proof.
  unfold complement_table.
  repeat (constructor; [eexists; reflexivity|]). constructor.
Qed.

(** What the check of the input sets against [U] collects. *)
Lemma missing_elements_spec (i : inputs) (p : parsed) :
  parse_inputs i = Some p ->
  exists missing,
    missing_elements (num_sets i) p = Some missing /\
    forall e, e ∈ missing <->
      (e ∉ U p) /\ (e ∈ A p \/ e ∈ B p \/ exists c, C p = Some c /\ e ∈ c).
Proof.
  unfold parse_inputs.
  destruct (parse_universal (U_input i)) as [U0|]; [|done]. simpl.
  intros [= <-]. unfold missing_elements. simpl.
  destruct (num_sets i =? 3)%Z; simpl; eexists; (split; [done|]).
  - intros e. rewrite !elem_of_union, !elem_of_difference. split.
    + intros [[[H|H]|H]|H]; [by apply not_elem_of_empty in H|..];
        naive_solver.
    + intros [Hu [H|[H|(c & [= <-] & H)]]]; auto.
  - intros e. rewrite !elem_of_union, !elem_of_difference. split.
    + intros [[H|H]|H]; [by apply not_elem_of_empty in H|..]; naive_solver.
    + intros [Hu [H|[H|(c & [=] & H)]]]; auto.
Qed.

(** The result column of the two-set branch. *)
Lemma result_column (A B R : gset element) (hids : list pystr) repr :
  exists column,
    (if decide (R = ∅)
     then Some [st_info (u "Resulting set is empty (∅).")]
     else detail ← mapM (region_line hids) (regions A B);
          Some (st_write (u "Result: " ++ repr) :: detail)) = Some column /\
    (R = ∅ -> column = [st_info (u "Resulting set is empty (∅).")]) /\
    (R <> ∅ -> exists detail,
       column = st_write (u "Result: " ++ repr) :: detail /\
       length detail = 3%nat).
Proof.
  destruct (decide (R = ∅)) as [E|E].
  - eexists. split; [done|]. split; [done|]. by intros [].
  - unfold regions, region_line. simpl.
    destruct (format_set_total (A ∖ B)) as [r1 ->].
    destruct (format_set_total (B ∖ A)) as [r2 ->].
    destruct (format_set_total (A ∩ B)) as [r3 ->]. simpl.
    eexists. split; [done|]. split; [done|]. intros _. by eexists.
Qed.

(** C6. When the operation is of the complement family, the input sets
    are checked against the universal set before the dispatch: the
    elements of A, of B, and of C when there are three sets, that U
    lacks are collected; when there are some, one error box in the
    sidebar lists exactly those elements, and when there are none
    nothing is shown.  Neither case stops the script.  With two sets
    and a complement of the menu, the output is the warning followed by
    the diagram of U and the operand, with "10" highlighted and the text
    of U minus the operand, and by the result column for U minus the
    operand: the formula is the same whether or not U covers the
    inputs. *)
Theorem universal_warning_non_blocking (i : inputs) (p : parsed) :
  Py.contains (u "Complement") (operation i) = true ->
  parse_inputs i = Some p ->
  exists missing,
    missing_elements (num_sets i) p = Some missing /\
    (forall e, e ∈ missing <->
       (e ∉ U p) /\ (e ∈ A p \/ e ∈ B p \/ exists c, C p = Some c /\ e ∈ c)) /\
    (missing = ∅ ->
       validate_universal (operation i) (num_sets i) p = Some []) /\
    (missing <> ∅ ->
       exists elems, elems ≡ₚ elements missing /\
         validate_universal (operation i) (num_sets i) p
         = Some [ st_sidebar_error
                    (u "Universal set missing elements: " ++
                     (u "{" ++ Py.join (u ", ") (str <$> elems) ++ u "}") ++
                     (u ". Complements may be incomplete.")) ]) /\
    (num_sets i = 2 ->
       forall operand,
         (operation i, operand) ∈ complement_table (A p) (B p) ->
         exists warn c2 repr column,
           validate_universal (operation i) (num_sets i) p = Some warn /\
           format_set (U p ∖ operand) = Some repr /\
           venn_two_sets i
           = Some (warn ++
                   plot_venn2_local (U p) operand (u "#CCCCCC") c2
                     [u "10"] repr :: column) /\
           (U p ∖ operand = ∅ ->
              column = [st_info (u "Resulting set is empty (∅).")]) /\
           (U p ∖ operand <> ∅ ->
              exists detail,
                column = st_write (u "Result: " ++ repr) :: detail /\
                length detail = 3%nat)) /\
    Forall (fun '(name, operand) =>
              result (two_set_dispatch name (A p) (B p) (U p)
                        (color_A i) (color_B i)) = U p ∖ operand)
           (complement_table (A p) (B p)).
Proof.
  intros Hc Hp.
  destruct (missing_elements_spec i p Hp) as (missing & Hm & Hin).
  assert (validate_universal (operation i) (num_sets i) p
          = if decide (missing = ∅) then Some []
            else repr ← format_set missing;
                 Some [ st_sidebar_error
                          (u "Universal set missing elements: " ++ repr ++
                           (u ". Complements may be incomplete.")) ]) as Hv.
  { unfold validate_universal. by rewrite Hc, Hm. }
  exists missing. split; [done|]. split; [done|].
  split; [|split; [|split]].
  - intros E. rewrite Hv. by destruct (decide (missing = ∅)).
  - intros Hne. destruct (format_set_nonempty _ Hne) as (elems & Hperm & _ & Hf).
    exists elems. split; [done|]. rewrite Hv.
    destruct (decide (missing = ∅)); [done|]. by rewrite Hf.
  - intros _ operand Hop.
    assert (is_Some (validate_universal (operation i) (num_sets i) p)) as [warn Hw].
    { rewrite Hv. destruct (decide (missing = ∅)); [done|].
      by destruct (format_set_total missing) as [repr ->]. }
    pose proof (complement_dispatch_record (A p) (B p) (U p)
                  (color_A i) (color_B i)) as Hall.
    rewrite Forall_forall in Hall. destruct (Hall _ Hop) as [c2 Hd].
    destruct (format_set_total (U p ∖ operand)) as [repr Hr].
    destruct (result_column (A p) (B p) (U p ∖ operand) [u "10"] repr)
      as (column & Hcol & Hempty & Hfull).
    exists warn, c2, repr, column.
    split; [done|]. split; [done|]. split; [|done].
    unfold venn_two_sets. rewrite Hp. cbn [mbind option_bind].
    rewrite Hw. cbn [mbind option_bind].
    unfold two_set_branch. rewrite Hd.
    cbn [result set1 set2 colors highlight_ids dispatch_calls fst snd].
    rewrite Hr. cbn [mbind option_bind]. rewrite Hcol. done.
  - eapply Forall_impl; [apply complement_dispatch|].
    intros [name operand] H. apply H.
Qed.

Lemma universal_warning_non_blocking_witness :
  exists missing warn c2 repr column,
    missing_elements 2
      {| A := {[ EInt 2; EInt 4; EInt 6; EInt 8 ]};
         B := {[ EInt 3; EInt 4; EInt 5; EInt 6; EInt 9 ]};
         C := None;
         U := {[ EInt 1; EInt 2; EInt 3; EInt 4; EInt 5 ]} |} = Some missing /\
    (EInt 8 ∈ missing <->
       (EInt 8 ∉ ({[ EInt 1; EInt 2; EInt 3; EInt 4; EInt 5 ]} : gset element)) /\
       (EInt 8 ∈ ({[ EInt 2; EInt 4; EInt 6; EInt 8 ]} : gset element) \/
        EInt 8 ∈ ({[ EInt 3; EInt 4; EInt 5; EInt 6; EInt 9 ]} : gset element) \/
        exists c : gset element, None = Some c /\ EInt 8 ∈ c)) /\
    venn_two_sets short_universal
    = Some (warn ++
            plot_venn2_local {[ EInt 1; EInt 2; EInt 3; EInt 4; EInt 5 ]}
              {[ EInt 2; EInt 4; EInt 6; EInt 8 ]} (u "#CCCCCC") c2
              [u "10"] repr :: column).
Proof.
  assert (parse_inputs short_universal
          = Some {| A := {[ EInt 2; EInt 4; EInt 6; EInt 8 ]};
                    B := {[ EInt 3; EInt 4; EInt 5; EInt 6; EInt 9 ]};
                    C := None;
                    U := {[ EInt 1; EInt 2; EInt 3; EInt 4; EInt 5 ]} |})
    as Hp by (by vm_compute).
  destruct (universal_warning_non_blocking short_universal _ eq_refl Hp)
    as (missing & Hm & Hin & _ & _ & Hrun & _).
  destruct (Hrun eq_refl {[ EInt 2; EInt 4; EInt 6; EInt 8 ]})
    as (warn & c2 & repr & column & _ & _ & Hv & _).
  { apply list_elem_of_here. }
  exists missing, warn, c2, repr, column.
  split; [exact Hm|]. split; [exact (Hin (EInt 8))|]. exact Hv.
Defined.

(** * Further properties of the parsers *)

Section StripMore.
Variable p : N -> bool.

Lemma rstrip_idem s : Py.rstrip_of p (Py.rstrip_of p s) = Py.rstrip_of p s.
Proof.
  induction s as [|c r IH]; simpl; [done|].
  destruct (Py.rstrip_of p r) as [|c' r'] eqn:E.
  - destruct (p c) eqn:Hc; simpl; rewrite ?Hc; done.
  - simpl in IH. simpl. by rewrite IH.
Qed.

Lemma head_rstrip s : head_is p s = false -> head_is p (Py.rstrip_of p s) = false.
Proof.
  destruct s as [|c r]; simpl; [done|]. intros Hc.
  destruct (Py.rstrip_of p r); [by rewrite Hc | done].
Qed.

Lemma strip_idem s : Py.strip_of p (Py.strip_of p s) = Py.strip_of p s.
Proof.
  unfold Py.strip_of at 1.
  destruct (lstrip_split p s) as (w & _ & _ & Hh).
  rewrite lstrip_head.
  - apply rstrip_idem.
  - unfold Py.strip_of. by apply head_rstrip.
Qed.

(** Padding in the class is invisible to [strip]. *)
Lemma strip_of_padded w1 s w2 :
  all_chars p w1 = true -> all_chars p w2 = true ->
  Py.strip_of p (w1 ++ s ++ w2) = Py.strip_of p s.
Proof.
  intros H1 H2. unfold Py.strip_of. rewrite lstrip_app_space by done.
  destruct (lstrip_split p s) as (w & Hw & Hs & Hh).
  destruct (Py.lstrip_of p s) as [|c r] eqn:E.
  - rewrite app_empty_r in Hs. subst w.
    rewrite lstrip_all_space; [done|].
    rewrite all_chars_app. by rewrite Hw, H2.
  - rewrite Hs at 1. rewrite app_assoc_string, lstrip_app_space by done.
    rewrite lstrip_head by done. by rewrite rstrip_app_space.
Qed.

(** What [strip] keeps is made of characters of the text. *)
Lemma all_chars_lstrip q s :
  all_chars q s = true -> all_chars q (Py.lstrip_of p s) = true.
Proof.
  induction s as [|c r IH]; simpl; [done|].
  intros [Hc Hr]%andb_true_iff.
  destruct (p c); [auto | simpl; by rewrite Hc, Hr].
Qed.

Lemma all_chars_rstrip q s :
  all_chars q s = true -> all_chars q (Py.rstrip_of p s) = true.
Proof.
  induction s as [|c r IH]; simpl; [done|].
  intros [Hc Hr]%andb_true_iff. specialize (IH Hr).
  destruct (Py.rstrip_of p r).
  - destruct (p c); simpl; [done | by rewrite Hc].
  - simpl in *. by rewrite Hc, IH.
Qed.

Lemma all_chars_strip q s :
  all_chars q s = true -> all_chars q (Py.strip_of p s) = true.
Proof. intros H. by apply all_chars_rstrip, all_chars_lstrip. Qed.
End StripMore.

(** X1. Whitespace around a token does not change what [parse_element]
    makes of it, and a string it returns has no whitespace left at
    either end. *)
Theorem parse_element_padding (w1 x w2 : pystr) :
  all_space w1 = true -> all_space w2 = true ->
  parse_element (w1 ++ x ++ w2) = parse_element x /\
  (forall s, parse_element x = Some (EStr s) -> Py.strip s = s).
Proof.
  intros H1 H2. split.
  - rewrite !parse_element_unfold. by rewrite strip_of_padded.
  - intros s. rewrite parse_element_unfold.
    destruct (str_eqb (Py.strip x) []); [done|].
    destruct (Py.int (Py.strip x)); [done|].
    intros [= <-]. apply strip_idem.
Qed.

Lemma parse_element_padding_witness :
  parse_element (u "  " ++ u "x 1" ++ u " ") = parse_element (u "x 1").
Proof. apply (parse_element_padding (u "  ") (u "x 1") (u " ")); reflexivity. Defined.

(** ** Integers and their decimal text *)

Lemma ascii_text_cons a s :
  ascii_text (String a s) = N_of_ascii a :: ascii_text s.
Proof. reflexivity. Qed.

Lemma pretty_N_char_digit m :
  (m < 10)%N ->
  Py.isdecimal (N_of_ascii (pretty_N_char m)) = true /\
  Py.digit_value (N_of_ascii (pretty_N_char m)) = Z.of_N m.
Proof.
  intros Hm.
  assert (m = 0 \/ m = 1 \/ m = 2 \/ m = 3 \/ m = 4 \/ m = 5 \/ m = 6 \/
          m = 7 \/ m = 8 \/ m = 9)%N as H by lia.
  repeat (destruct H as [-> | H]; [by vm_compute|]). subst. by vm_compute.
Qed.

Lemma pretty_N_go_value x s :
  all_digits (ascii_text s) = true ->
  all_digits (ascii_text (pretty_N_go x s)) = true /\
  decimal_value (ascii_text (pretty_N_go x s))
  = Z.of_N x * 10 ^ Z.of_nat (length (ascii_text s))
    + decimal_value (ascii_text s).
Proof.
  revert s. induction (N.lt_wf_0 x) as [x _ IH]. intros s Hs.
  destruct (decide (x = 0%N)) as [-> | Hx].
  - rewrite pretty_N_go_0. split; [done | lia].
  - rewrite pretty_N_go_step by lia.
    destruct (pretty_N_char_digit (x `mod` 10)%N) as [Hd Hv].
    { apply N.mod_lt. lia. }
    destruct (IH (x `div` 10)%N ltac:(apply N.div_lt; lia)
                 (String (pretty_N_char (x `mod` 10)) s)) as [Hall Hval].
    { rewrite ascii_text_cons. cbn [all_chars]. by rewrite Hd, Hs. }
    split; [done|]. rewrite Hval, ascii_text_cons. cbn [decimal_value length].
    rewrite Hv, Nat2Z.inj_succ, Z.pow_succ_r by lia.
    rewrite N2Z.inj_div, N2Z.inj_mod.
    pose proof (Z.div_mod (Z.of_N x) 10 ltac:(lia)) as Hdm.
    change (Z.of_N 10) with 10.
    set (q := Z.of_N x `div` 10) in *. set (m := Z.of_N x `mod` 10) in *.
    rewrite Hdm. ring.
Qed.

(** A number below [10 ^ k] is written with at most [k] digits. *)
Lemma pretty_N_go_length x s (k : nat) :
  (x < 10 ^ N.of_nat k)%N ->
  (length (ascii_text (pretty_N_go x s)) <= k + length (ascii_text s))%nat.
Proof.
  revert s k. induction (N.lt_wf_0 x) as [x _ IH]. intros s k Hk.
  destruct (decide (x = 0%N)) as [-> | Hx].
  - rewrite pretty_N_go_0. lia.
  - rewrite pretty_N_go_step by lia.
    destruct k as [|k]; [simpl in Hk; lia|].
    assert (x `div` 10 < 10 ^ N.of_nat k)%N as Hq.
    { apply N.Div0.div_lt_upper_bound.
      rewrite Nat2N.inj_succ, N.pow_succ_r' in Hk. lia. }
    pose proof (IH (x `div` 10)%N ltac:(apply N.div_lt; lia)
                  (String (pretty_N_char (x `mod` 10)) s) k Hq) as H.
    rewrite ascii_text_cons in H. cbn [length] in H. lia.
Qed.

(** The decimal text of a positive number: digits, not empty, with the
    number as value, and within the limit of [int] when the number is
    below [10 ^ 4300]. *)
Lemma pretty_pos_digits (q : positive) :
  all_digits (ascii_text (pretty (N.pos q))) = true /\
  ascii_text (pretty (N.pos q)) <> [] /\
  decimal_value (ascii_text (pretty (N.pos q))) = Z.pos q /\
  (Z.pos q < 10 ^ Z.of_N Py.int_max_str_digits ->
   within_limit (ascii_text (pretty (N.pos q))) = true).
Proof.
  unfold pretty, pretty_N. case_decide as H; [done|].
  destruct (pretty_N_go_value (N.pos q) EmptyString eq_refl) as [Hall Hval].
  change (ascii_text EmptyString) with (@nil N) in Hval.
  cbn [length decimal_value] in Hval.
  split; [done|]. split; [|split].
  - intros E. rewrite E in Hval. cbn [decimal_value] in Hval. lia.
  - rewrite Hval. change (Z.of_nat 0) with 0. lia.
  - intros Hlt. unfold within_limit. apply N.leb_le.
    pose proof (pretty_N_go_length (N.pos q) EmptyString
                  (N.to_nat Py.int_max_str_digits)) as Hlen.
    change (length (ascii_text EmptyString)) with 0%nat in Hlen.
    rewrite N2Nat.id in Hlen.
    assert (N.pos q < 10 ^ Py.int_max_str_digits)%N as Hq.
    { apply N2Z.inj_lt. rewrite N2Z.inj_pow. exact Hlt. }
    specialize (Hlen Hq). lia.
Qed.

(** The text of an integer is a sign and digits: it holds no whitespace
    and no comma. *)
Lemma str_int_shape (n : Z) :
  all_chars (fun c => negb (Py.isspace c)) (str (EInt n)) = true /\
  no_comma (str (EInt n)) = true /\ str (EInt n) <> [].
Proof.
  assert (forall sign ds, is_sign sign = true -> sign <> u "+" -> ds <> [] ->
            all_digits ds = true ->
            all_chars (fun c => negb (Py.isspace c)) (sign ++ ds) = true /\
            no_comma (sign ++ ds) = true /\ sign ++ ds <> []) as Hshape.
  { intros sign ds Hs Hplus Hne Hd.
    destruct (signed_digits_no_space sign ds Hs Hne Hd) as [Hns Hb].
    split; [done|]. split; [|done].
    unfold no_comma. rewrite all_chars_app. apply andb_true_iff. split.
    - unfold is_sign in Hs. rewrite !orb_true_iff, !str_eqb_eq in Hs.
      by destruct Hs as [[-> | ->] | ->].
    - eapply all_chars_impl; [|exact Hd]. intros c Hc. simpl.
      destruct (digit_not_sign c Hc) as (_ & _ & _ & -> & _). done. }
  unfold str. destruct n as [|q|q].
  - by vm_compute.
  - destruct (pretty_pos_digits q) as (Hd & Hne & _).
    change (ascii_text (pretty (Z.pos q)))
      with ([] ++ ascii_text (pretty (N.pos q))).
    by apply Hshape.
  - destruct (pretty_pos_digits q) as (Hd & Hne & _).
    change (ascii_text (pretty (Z.neg q)))
      with (u "-" ++ ascii_text (pretty (N.pos q))).
    by apply Hshape.
Qed.

(** [int(str(n))] is [n] for an integer below [10 ^ 4300] in absolute
    value. *)
Lemma int_pretty (n : Z) :
  Z.abs n < 10 ^ Z.of_N Py.int_max_str_digits ->
  Py.int (str (EInt n)) = Some n.
Proof.
  intros Hn. unfold str. destruct n as [|q|q].
  - by vm_compute.
  - destruct (pretty_pos_digits q) as (Hd & Hne & Hv & Hl).
    change (ascii_text (pretty (Z.pos q)))
      with ([] ++ ascii_text (pretty (N.pos q))).
    rewrite int_signed_digits, Hl, Hv by done. done.
  - destruct (pretty_pos_digits q) as (Hd & Hne & Hv & Hl).
    change (ascii_text (pretty (Z.neg q)))
      with (u "-" ++ ascii_text (pretty (N.pos q))).
    rewrite int_signed_digits, Hl, Hv by done. done.
Qed.

(** What [int] returns is below [10 ^ 4300] in absolute value. *)
Lemma int_digits_bound s acc cnt b n :
  0 <= acc < 10 ^ Z.of_N cnt ->
  Py.int_digits acc cnt b s = Some n ->
  0 <= n < 10 ^ Z.of_N Py.int_max_str_digits.
Proof.
  revert acc cnt b. induction s as [|c r IH]; intros acc cnt b Hacc;
    cbn [Py.int_digits].
  - destruct b; [done|].
    destruct (cnt <=? Py.int_max_str_digits)%N eqn:E; [|done].
    intros [= <-]. apply N.leb_le in E. split; [lia|].
    eapply Z.lt_le_trans; [apply Hacc|]. apply Z.pow_le_mono_r; lia.
  - destruct (Py.isdecimal c) eqn:Hc.
    + apply IH. pose proof (digit_value_range c) as Hd.
      rewrite N2Z.inj_add, Z.pow_add_r by lia.
      change (10 ^ Z.of_N 1) with 10.
      generalize dependent (10 ^ Z.of_N cnt). intros. lia.
    + destruct (c =? c_under)%N; [|done]. destruct b; [done|]. by apply IH.
Qed.

Lemma int_unsigned_bound s n :
  Py.int_unsigned s = Some n -> 0 <= n < 10 ^ Z.of_N Py.int_max_str_digits.
Proof.
  unfold Py.int_unsigned. destruct s as [|c r]; [done|].
  destruct (Py.isdecimal c); [|done].
  apply int_digits_bound. pose proof (digit_value_range c).
  change (10 ^ Z.of_N 1) with 10. lia.
Qed.

Lemma int_bound s n :
  Py.int s = Some n -> Z.abs n < 10 ^ Z.of_N Py.int_max_str_digits.
Proof.
  unfold Py.int. destruct (Py.strip_of Py.isspace_c s) as [|c r]; [done|].
  destruct (c =? c_plus)%N.
  - intros H%int_unsigned_bound. lia.
  - destruct (c =? c_minus)%N.
    + destruct (Py.int_unsigned r) as [m|] eqn:E; [|done].
      intros [= <-]. apply int_unsigned_bound in E. lia.
    + intros H%int_unsigned_bound. lia.
Qed.

(** ** What parsing produces *)

Lemma parse_element_str_parsed e :
  parsed_element e = true ->
  parse_element (str e) = Some e /\ no_comma (str e) = true.
Proof.
  destruct e as [n|s]; cbn [parsed_element].
  - intros Hn%Z.ltb_lt. pose proof (int_pretty n Hn) as Hint.
    destruct (str_int_shape n) as (Hns & Hnc & Hne).
    split; [|done]. rewrite parse_element_unfold.
    rewrite strip_no_space by done.
    apply str_eqb_neq in Hne. by rewrite Hne, Hint.
  - unfold kept_text. rewrite !andb_true_iff, negb_true_iff.
    intros [[[Hne Hstrip] Hnc] Hint]. split; [|done].
    apply str_eqb_eq in Hstrip. rewrite parse_element_unfold.
    cbn [str]. rewrite Hstrip, Hne.
    by destruct (Py.int s).
Qed.

Lemma parse_element_parsed x e :
  no_comma x = true -> parse_element x = Some e -> parsed_element e = true.
Proof.
  intros Hnc. rewrite parse_element_unfold.
  destruct (str_eqb (Py.strip x) []) eqn:Hne; [done|].
  destruct (Py.int (Py.strip x)) eqn:Hint; intros [= <-].
  { cbn [parsed_element]. apply Z.ltb_lt. by apply int_bound in Hint. }
  cbn [parsed_element]. unfold kept_text. rewrite Hne, Hint, strip_idem, str_eqb_refl.
  unfold no_comma. by rewrite all_chars_strip.
Qed.

Lemma split_no_comma text :
  Forall (fun part => no_comma part = true) (Py.split c_comma text).
Proof.
  induction text as [|c r IH]; simpl.
  - by repeat constructor.
  - destruct ((c =? c_comma)%N) eqn:Ec; [by constructor|].
    pose proof (split_nonempty c_comma r).
    destruct (Py.split c_comma r) as [|q qs]; [done|].
    inversion IH as [|? ? Hq Hqs]; subst. constructor; [|done].
    unfold no_comma in *. simpl. by rewrite Ec, Hq.
Qed.

(** X2. An element that [parse_element] returns is read back from its
    own text: the text [str] gives for it parses to the same element. *)
Theorem parse_element_str_roundtrip (x : pystr) (e : element) :
  parse_element x = Some e -> parse_element (str e) = Some e.
Proof.
  rewrite (parse_element_unfold x).
  destruct (str_eqb (Py.strip x) []) eqn:Hne; [done|].
  destruct (Py.int (Py.strip x)) eqn:Hint; intros [= <-].
  - apply (parse_element_str_parsed (EInt z)).
    cbn [parsed_element]. apply Z.ltb_lt. by apply int_bound in Hint.
  - cbn [str]. rewrite parse_element_unfold. by rewrite strip_idem, Hne, Hint.
Qed.

Lemma parse_element_str_roundtrip_witness :
  parse_element (str (EInt (-7))) = Some (EInt (-7)).
Proof. apply (parse_element_str_roundtrip (u " -007 ")). reflexivity. Defined.

Lemma parse_set_parsed text e : e ∈ parse_set text -> parsed_element e = true.
Proof.
  intros (part & Hin & Hpart)%elem_of_parse_set.
  eapply parse_element_parsed; [|exact Hpart].
  pose proof (split_no_comma text) as Hall.
  rewrite Forall_forall in Hall. by apply Hall.
Qed.

(** X3. Every element of a parsed set is an integer below [10 ^ 4300]
    in absolute value, or a string that is not empty, has no whitespace
    at either end, holds no comma and is not a text that [int]
    accepts. *)
Theorem parse_set_elements_kept (text : pystr) (e : element) :
  e ∈ parse_set text ->
  match e with
  | EInt n => Z.abs n < 10 ^ Z.of_N Py.int_max_str_digits
  | EStr s =>
      s <> [] /\ Py.strip s = s /\ no_comma s = true /\ Py.int s = None
  end.
Proof.
  intros H%parse_set_parsed. destruct e as [n|s]; [by apply Z.ltb_lt in H|].
  cbn [parsed_element] in H. unfold kept_text in H.
  rewrite !andb_true_iff, negb_true_iff, str_eqb_neq, str_eqb_eq in H.
  destruct H as [[[Hne Hs] Hnc] Hint]. repeat split; try done.
  by destruct (Py.int s).
Qed.

Lemma parse_set_elements_kept_witness :
  (u "a b") <> [] /\ Py.strip (u "a b") = u "a b" /\ no_comma (u "a b") = true /\
  Py.int (u "a b") = None.
Proof.
  apply (parse_set_elements_kept (u "1, a b ,") (EStr (u "a b"))).
  refine (bool_decide_unpack _ _). by vm_compute.
Defined.

(** ** Texts given to the set parser *)

Lemma isspace_not_comma c : Py.isspace c = true -> negb ((c =? c_comma)%N) = true.
Proof.
  intros H. destruct (N.eqb_spec c c_comma) as [-> |]; [discriminate H | done].
Qed.

Lemma all_space_no_comma w : all_space w = true -> no_comma w = true.
Proof. apply all_chars_impl, isspace_not_comma. Qed.

Lemma split_no_sep t : no_comma t = true -> Py.split c_comma t = [t].
Proof.
  unfold no_comma. induction t as [|c r IH]; simpl; [done|].
  intros [Hc Hr]%andb_true_iff. apply negb_true_iff in Hc.
  by rewrite Hc, (IH Hr).
Qed.

Lemma split_prefix w t :
  no_comma w = true ->
  exists q qs, Py.split c_comma t = q :: qs /\ Py.split c_comma (w ++ t) = (w ++ q) :: qs.
Proof.
  unfold no_comma. induction w as [|c w IH]; simpl.
  - intros _. pose proof (split_nonempty c_comma t).
    destruct (Py.split c_comma t) as [|q qs]; [done|]. by exists q, qs.
  - intros [Hc Hw]%andb_true_iff. apply negb_true_iff in Hc.
    destruct (IH Hw) as (q & qs & Ht & Hwt).
    exists q, qs. split; [done|]. by rewrite Hc, Hwt.
Qed.

Lemma split_suffix t w :
  no_comma w = true ->
  exists init last,
    Py.split c_comma t = (init ++ [last]) /\
    Py.split c_comma (t ++ w) = (init ++ [(last ++ w)]).
Proof.
  intros Hw. induction t as [|c r (init & last & Hr & Hrw)]; simpl.
  - exists [], []. split; [done|]. simpl. by apply split_no_sep.
  - destruct ((c =? c_comma)%N).
    + exists ([] :: init), last. by rewrite Hr, Hrw.
    + rewrite Hr, Hrw. destruct init as [|i init]; simpl.
      * by exists [], (c :: last).
      * by exists ((c :: i) :: init), last.
Qed.

Lemma parse_element_prefix w x :
  all_space w = true -> parse_element (w ++ x) = parse_element x.
Proof.
  intros Hw. unfold parse_element.
  assert (Py.strip (w ++ x) = Py.strip x) as ->; [|done].
  rewrite <- (app_empty_r x) at 1. by apply strip_of_padded.
Qed.

Lemma parse_element_suffix x w :
  all_space w = true -> parse_element (x ++ w) = parse_element x.
Proof.
  intros Hw. unfold parse_element.
  assert (Py.strip (x ++ w) = Py.strip x) as ->; [|done].
  by apply (strip_of_padded Py.isspace [] x w).
Qed.

Lemma parse_set_prefix w t :
  all_space w = true -> parse_set (w ++ t) = parse_set t.
Proof.
  intros Hw. unfold parse_set.
  destruct (split_prefix w t (all_space_no_comma _ Hw)) as (q & qs & -> & ->).
  simpl. unfold parse_set_step at 2 4. by rewrite parse_element_prefix.
Qed.

Lemma parse_set_suffix t w :
  all_space w = true -> parse_set (t ++ w) = parse_set t.
Proof.
  intros Hw. apply set_eq. intros e. rewrite !elem_of_parse_set.
  destruct (split_suffix t w (all_space_no_comma _ Hw)) as (init & last & -> & ->).
  setoid_rewrite elem_of_app. setoid_rewrite list_elem_of_singleton.
  split.
  - intros (part & [Hin | ->] & Hp); [by eauto|].
    exists last. split; [by right|]. by rewrite <- (parse_element_suffix last w).
  - intros (part & [Hin | ->] & Hp); [by eauto|].
    exists (last ++ w). split; [by right|]. by rewrite parse_element_suffix.
Qed.

(** What [strip] removes from a text. *)
Lemma rstrip_split (p : N -> bool) s :
  exists w, all_chars p w = true /\ s = Py.rstrip_of p s ++ w.
Proof.
  induction s as [|c r (w & Hw & Hr)]; simpl.
  - by exists [].
  - destruct (Py.rstrip_of p r) as [|c' r'] eqn:E.
    + destruct (p c) eqn:Hc.
      * exists (c :: w). simpl in *. rewrite Hc, Hw. by rewrite <- Hr.
      * exists w. split; [done|]. simpl in *. by rewrite <- Hr.
    + exists w. split; [done|]. simpl in *. by rewrite <- Hr.
Qed.

Lemma strip_split (p : N -> bool) s :
  exists w1 w2, all_chars p w1 = true /\ all_chars p w2 = true /\
    s = w1 ++ Py.strip_of p s ++ w2.
Proof.
  destruct (lstrip_split p s) as (w1 & H1 & Hs & _).
  destruct (rstrip_split p (Py.lstrip_of p s)) as (w2 & H2 & Hl).
  exists w1, w2. split; [done|]. split; [done|].
  unfold Py.strip_of. by rewrite <- Hl.
Qed.

Lemma parse_set_strip text : parse_set (Py.strip text) = parse_set text.
Proof.
  destruct (strip_split Py.isspace text) as (w1 & w2 & H1 & H2 & Ht).
  rewrite Ht at 2. by rewrite parse_set_prefix, parse_set_suffix.
Qed.

(** X4. Joining two texts with a comma gives the union of their sets;
    so the order of the two texts does not matter, and a comma at the
    end of a text adds nothing. *)
Theorem parse_set_concat (a b : pystr) :
  parse_set (a ++ u "," ++ b) = parse_set a ∪ parse_set b /\
  parse_set (a ++ u "," ++ b) = parse_set (b ++ u "," ++ a) /\
  parse_set (a ++ u ",") = parse_set a.
Proof.
  change (u "," ++ b) with (c_comma :: b). change (u "," ++ a) with (c_comma :: a).
  split; [apply parse_set_app|]. split.
  - rewrite !parse_set_app. apply set_eq. intros e. rewrite !elem_of_union. tauto.
  - change (u ",") with [c_comma]. rewrite parse_set_app.
    apply set_eq. intros e. rewrite elem_of_union.
    split; [intros [H|H]; [done | by apply not_elem_of_empty in H] | by left].
Qed.

(** X5. Whitespace before and after the whole text does not change the
    parsed set. *)
Theorem parse_set_padding (w1 text w2 : pystr) :
  all_space w1 = true -> all_space w2 = true ->
  parse_set (w1 ++ text ++ w2) = parse_set text.
Proof. intros H1 H2. by rewrite parse_set_prefix, parse_set_suffix. Qed.

Lemma parse_set_padding_witness :
  parse_set (u "  " ++ u "1, b,2" ++ u " ") = parse_set (u "1, b,2").
Proof. apply (parse_set_padding (u "  ") (u "1, b,2") (u " ")); reflexivity. Defined.

Lemma size_parse_set_fold parts (acc : gset element) :
  (size (foldl parse_set_step acc parts) <= size acc + length parts)%nat.
Proof.
  revert acc. induction parts as [|q parts IH]; intros acc; simpl; [lia|].
  etrans; [apply IH|]. unfold parse_set_step.
  destruct (parse_element q) as [el|]; [|lia].
  rewrite size_union_alt.
  assert (size ({[el]} ∖ acc : gset element) <= 1)%nat; [|lia].
  rewrite <- (size_singleton (C:=gset element) el).
  apply subseteq_size. set_solver.
Qed.

(** X6. A parsed set has at most as many elements as the text has
    comma-separated pieces. *)
Theorem parse_set_size_bound (text : pystr) :
  (size (parse_set text) <= length (Py.split c_comma text))%nat.
Proof.
  unfold parse_set. etrans; [apply size_parse_set_fold|].
  rewrite size_empty. lia.
Qed.

(** ** Texts given to the universal set parser *)

Lemma no_comma_strip text : no_comma (Py.strip text) = no_comma text.
Proof.
  destruct (strip_split Py.isspace text) as (w1 & w2 & H1 & H2 & Ht).
  rewrite Ht at 2. unfold no_comma. rewrite !all_chars_app.
  fold (no_comma w1). fold (no_comma w2).
  rewrite (all_space_no_comma w1), (all_space_no_comma w2) by done.
  simpl. by rewrite andb_true_r.
Qed.

Lemma int_group_no_comma g : int_group g -> no_comma g = true.
Proof.
  intros (sign & ds & -> & Hs & Hne & Hd). unfold no_comma.
  rewrite all_chars_app. apply andb_true_iff. split.
  - by destruct Hs as [-> | ->].
  - eapply all_chars_impl; [|exact Hd]. intros c Hc. simpl.
    by destruct (digit_not_sign c Hc) as (_ & _ & _ & -> & _).
Qed.

Lemma range_pattern_no_comma txt g1 g2 :
  range_pattern txt g1 g2 -> no_comma txt = true.
Proof.
  intros (w0 & w1 & w2 & w3 & H0 & H1 & H2 & H3 & Hg1 & Hg2 & ->).
  unfold no_comma. rewrite !all_chars_app.
  fold (no_comma w0) (no_comma w1) (no_comma w2) (no_comma w3)
       (no_comma g1) (no_comma g2).
  rewrite (all_space_no_comma w0), (all_space_no_comma w1),
    (all_space_no_comma w2), (all_space_no_comma w3),
    (int_group_no_comma g1), (int_group_no_comma g2) by done. done.
Qed.

(** X7. A text that holds a comma, or that the range pattern does not
    match, is read by [parse_universal] exactly as [parse_set] reads
    it. *)
Theorem parse_universal_as_parse_set (text : pystr) :
  no_comma text = false \/ range_fullmatch (Py.strip text) = None ->
  parse_universal text = Some (parse_set text).
Proof.
  intros H.
  assert (range_fullmatch (Py.strip text) = None) as Hno.
  { destruct H as [H|H]; [|done].
    destruct (range_fullmatch (Py.strip text)) as [[g1 g2]|] eqn:E; [|done].
    apply range_fullmatch_sound, range_pattern_no_comma in E.
    rewrite no_comma_strip in E. congruence. }
  unfold parse_universal. by rewrite Hno, parse_set_strip.
Qed.

Lemma parse_universal_as_parse_set_witness :
  parse_universal (u " 5,10 ") = Some (parse_set (u " 5,10 ")) /\
  parse_universal (u "1 -- 2") = Some (parse_set (u "1 -- 2")).
Proof.
  split.
  - apply (parse_universal_as_parse_set (u " 5,10 ")). left. reflexivity.
  - apply (parse_universal_as_parse_set (u "1 -- 2")). right. reflexivity.
Defined.

Lemma size_set_range start stop :
  size (set_range start stop) = Z.to_nat (stop - start).
Proof.
  unfold set_range. rewrite size_list_to_set.
  - by rewrite length_fmap, length_seqZ.
  - apply NoDup_fmap_2; [|apply NoDup_seqZ]. by intros ?? [= ->].
Qed.

Lemma parse_universal_range_spec text g1 g2 U0 :
  range_fullmatch (Py.strip text) = Some (g1, g2) ->
  parse_universal text = Some U0 ->
  exists a b,
    Py.int g1 = Some a /\ Py.int g2 = Some b /\
    U0 = set_range (Z.min a b) (Z.max a b + 1) /\
    size U0 = Z.to_nat (Z.abs (a - b) + 1) /\
    (forall e, e ∈ U0 -> is_int e = true).
Proof.
  intros E. rewrite (parse_universal_range _ _ _ E).
  apply range_fullmatch_sound in E
    as (? & ? & ? & ? & _ & _ & _ & _ & Hg1 & Hg2 & _).
  rewrite (int_group_int _ Hg1), (int_group_int _ Hg2).
  destruct (within_limit (group_digits g1)); [|done].
  destruct (within_limit (group_digits g2)); [|done].
  cbn [andb]. intros [= <-]. exists (group_value g1), (group_value g2).
  split; [done|]. split; [done|]. split; [done|]. split.
  - rewrite size_set_range. f_equal. lia.
  - by intros e (n & -> & _)%elem_of_set_range.
Qed.

(** X8. When the range pattern matches and [parse_universal] returns,
    both bounds are integers, and the universal set holds integers
    only, as many as the distance between the two bounds plus one: it
    is never empty. *)
Theorem parse_universal_range_shape (text g1 g2 : pystr) (U0 : gset element) :
  range_fullmatch (Py.strip text) = Some (g1, g2) ->
  parse_universal text = Some U0 ->
  exists a b,
    Py.int g1 = Some a /\ Py.int g2 = Some b /\
    U0 = set_range (Z.min a b) (Z.max a b + 1) /\
    size U0 = Z.to_nat (Z.abs (a - b) + 1) /\
    (forall e, e ∈ U0 -> is_int e = true).
Proof. apply parse_universal_range_spec. Qed.

Lemma parse_universal_range_shape_witness :
  exists a b,
    Py.int (u "7") = Some a /\ Py.int (u "-3") = Some b /\
    set_range (-3) 8 = set_range (Z.min a b) (Z.max a b + 1) /\
    size (set_range (-3) 8) = Z.to_nat (Z.abs (a - b) + 1) /\
    (forall e, e ∈ set_range (-3) 8 -> is_int e = true).
Proof.
  apply (parse_universal_range_shape (u " 7 - -3 ") (u "7") (u "-3")).
  - reflexivity.
  - by vm_compute.
Defined.

(** X9. Whitespace before and after the text does not change the
    universal set. *)
Theorem parse_universal_padding (w1 text w2 : pystr) :
  all_space w1 = true -> all_space w2 = true ->
  parse_universal (w1 ++ text ++ w2) = parse_universal text.
Proof.
  intros H1 H2. unfold parse_universal. by rewrite strip_of_padded.
Qed.

Lemma parse_universal_padding_witness :
  parse_universal (u "  " ++ u "3-7" ++ u " ") = parse_universal (u "3-7").
Proof. apply (parse_universal_padding (u "  ") (u "3-7") (u " ")); reflexivity. Defined.

(** ** Reading a displayed set back *)

Lemma parse_set_single e :
  parsed_element e = true -> parse_set (str e) = {[ e ]}.
Proof.
  intros He. destruct (parse_element_str_parsed e He) as [Hp Hnc].
  unfold parse_set. rewrite split_no_sep by done. simpl.
  unfold parse_set_step. rewrite Hp. apply set_eq. intros x.
  rewrite elem_of_union, elem_of_singleton.
  split; [intros [H|H]; [by apply not_elem_of_empty in H | done] | by right].
Qed.

Lemma parse_set_join elems :
  elems <> [] -> Forall (fun e => parsed_element e = true) elems ->
  parse_set (Py.join (u ", ") (str <$> elems)) = list_to_set elems.
Proof.
  induction elems as [|e elems IH]; [done|]. intros _ Hall.
  inversion Hall as [|? ? He Hrest]; subst.
  destruct elems as [|e' elems].
  - simpl. rewrite parse_set_single by done.
    apply set_eq. intros x. rewrite elem_of_union, elem_of_singleton.
    split; [by left | intros [H|H]; [done | by apply not_elem_of_empty in H]].
  - change (Py.join (u ", ") (str <$> e :: e' :: elems))
      with (str e ++ c_comma :: (u " " ++ Py.join (u ", ") (str <$> e' :: elems))).
    rewrite parse_set_app, parse_set_prefix by done.
    rewrite IH by done. by rewrite parse_set_single.
Qed.

Lemma format_set_body (s : gset element) :
  s <> ∅ -> (forall e, e ∈ s -> parsed_element e = true) ->
  exists body,
    format_set s = Some (u "{" ++ body ++ u "}") /\ parse_set body = s.
Proof.
  intros Hne Hall.
  destruct (format_set_nonempty s Hne) as (elems & Hperm & _ & Hf).
  exists (Py.join (u ", ") (str <$> elems)). split; [done|].
  rewrite parse_set_join.
  - by rewrite Hperm, list_to_set_elements_L.
  - intros ->. apply Permutation_nil in Hperm.
    by apply elements_empty_inv, leibniz_equiv in Hperm.
  - apply Forall_forall. intros e He. apply Hall.
    rewrite <- elem_of_elements. by rewrite <- Hperm.
Qed.

(** X10. The text shown for a non-empty parsed set, without its braces,
    parses back to the same set. *)
Theorem format_set_reparse (text : pystr) :
  parse_set text <> ∅ ->
  exists body,
    format_set (parse_set text) = Some (u "{" ++ body ++ u "}") /\
    parse_set body = parse_set text.
Proof.
  intros Hne. apply format_set_body; [done|]. apply parse_set_parsed.
Qed.

Lemma format_set_reparse_witness :
  exists body,
    format_set (parse_set (u "b, 10 ,9,,a b")) = Some (u "{" ++ body ++ u "}") /\
    parse_set body = parse_set (u "b, 10 ,9,,a b").
Proof.
  apply (format_set_reparse (u "b, 10 ,9,,a b")).
  intros H. apply (f_equal elements) in H. vm_compute in H. discriminate H.
Defined.

Lemma format_set_empty_text body :
  format_set ∅ <> Some (u "{" ++ body ++ u "}").
Proof. by vm_compute. Qed.

(** X11. Two parsed sets that are shown with the same text are the same
    set. *)
Theorem format_set_parsed_inj (t1 t2 : pystr) :
  format_set (parse_set t1) = format_set (parse_set t2) ->
  parse_set t1 = parse_set t2.
Proof.
  intros Heq.
  destruct (decide (parse_set t1 = ∅)) as [E1|N1];
    destruct (decide (parse_set t2 = ∅)) as [E2|N2].
  - congruence.
  - destruct (format_set_body _ N2 (parse_set_parsed t2)) as (b & Hb & _).
    rewrite E1, Hb in Heq. by apply format_set_empty_text in Heq.
  - destruct (format_set_body _ N1 (parse_set_parsed t1)) as (b & Hb & _).
    rewrite E2, Hb in Heq. symmetry in Heq.
    by apply format_set_empty_text in Heq.
  - destruct (format_set_body _ N1 (parse_set_parsed t1)) as (b1 & Hb1 & <-).
    destruct (format_set_body _ N2 (parse_set_parsed t2)) as (b2 & Hb2 & <-).
    rewrite Hb1, Hb2 in Heq. injection Heq as Heq.
    by apply app_inv_tail in Heq as ->.
Qed.

Lemma format_set_parsed_inj_witness :
  parse_set (u "2,1, 2") = parse_set (u " 1,2,").
Proof. apply format_set_parsed_inj. by vm_compute. Defined.

(** * Further properties of the two-set view *)

Lemma highlighted_union_none (X Y : gset element) : highlighted_union X Y [] = ∅.
Proof. unfold highlighted_union, regions. by rewrite !filter_cons, filter_nil. Qed.

(** X12. Whatever the operation, the result is the union of the
    highlighted regions of the two sets that are drawn. *)
Theorem diagram_highlights_result (operation : pystr)
    (A B U : gset element) (cA cB : pystr) :
  let d := two_set_dispatch operation A B U cA cB in
  result d = highlighted_union (set1 d) (set2 d) (highlight_ids d).
Proof.
  cbn zeta. unfold two_set_dispatch.
  repeat match goal with
  | |- context [str_eqb operation ?name] =>
      destruct (str_eqb operation name)
  end; cbn [result set1 set2 highlight_ids].
  - rewrite highlighted_union_all. apply union_regions.
  - by destruct (highlighted_union_one A B) as (_ & _ & ->).
  - by destruct (highlighted_union_one A B) as (-> & _ & _).
  - by destruct (highlighted_union_one A B) as (_ & -> & _).
  - by destruct (highlighted_union_one U A) as (-> & _ & _).
  - by destruct (highlighted_union_one U B) as (-> & _ & _).
  - by destruct (highlighted_union_one U (A ∪ B)) as (-> & _ & _).
  - by destruct (highlighted_union_one U (A ∩ B)) as (-> & _ & _).
  - by rewrite highlighted_union_none.
Qed.

(** X13. For the four operations without complement, a region of the
    detail list that is ticked lies within the result, and a region that
    is not ticked shares no element with it. *)
Theorem detail_ticks_basic (A B U : gset element) (cA cB : pystr) :
  Forall (fun operation =>
            let d := two_set_dispatch operation A B U cA cB in
            Forall (fun r =>
                      if bool_decide (r.2.2 ∈ highlight_ids d)
                      then r.2.1 ⊆ result d
                      else r.2.1 ## result d)
                   (regions A B))
         [u "A ∪ B"; u "A ∩ B"; u "A \ B"; u "B \ A"].
Proof. repeat constructor; simpl; set_solver. Qed.

(** X14. For "Complement of A" with a non-empty result the detail list
    ticks "A only" and nothing else, although no element of that region
    is in the result, while every element of "B only" that the universal
    set holds is in the result. *)
Theorem detail_ticks_complement (A B U : gset element) (cA cB : pystr) :
  U ∖ A <> ∅ ->
  exists r0 r1 r2 r3,
    format_set (U ∖ A) = Some r0 /\ format_set (A ∖ B) = Some r1 /\
    format_set (B ∖ A) = Some r2 /\ format_set (A ∩ B) = Some r3 /\
    two_set_branch (u "Complement of A") A B U cA cB
    = Some [ plot_venn2_local U A (u "#CCCCCC") cA [u "10"] r0;
             st_write (u "Result: " ++ r0);
             st_write (u "**A only**: " ++ r1 ++ u " ✅");
             st_write (u "**B only**: " ++ r2 ++ u " ❌");
             st_write (u "**A ∩ B**: " ++ r3 ++ u " ❌") ] /\
    (A ∖ B) ## (U ∖ A) /\
    (B ∖ A) ∩ U ⊆ U ∖ A.
Proof.
  intros Hne.
  destruct (format_set_total (U ∖ A)) as [r0 H0].
  destruct (format_set_total (A ∖ B)) as [r1 H1].
  destruct (format_set_total (B ∖ A)) as [r2 H2].
  destruct (format_set_total (A ∩ B)) as [r3 H3].
  exists r0, r1, r2, r3. repeat (split; [done|]).
  split; [|split; set_solver].
  unfold two_set_branch.
  change (two_set_dispatch (u "Complement of A") A B U cA cB)
    with {| set1 := U; set2 := A; colors := (u "#CCCCCC", cA);
            result := U ∖ A; highlight_ids := [u "10"]; dispatch_calls := [] |}.
  cbn [result set1 set2 colors highlight_ids dispatch_calls fst snd].
  rewrite H0. simpl. destruct (decide (U ∖ A = ∅)); [done|].
  unfold regions, region_line. simpl. by rewrite H1, H2, H3.
Qed.

Lemma detail_ticks_complement_witness :
  exists rest,
    two_set_branch (u "Complement of A") (parse_set (u "2, 4, 6, 8"))
      (parse_set (u "3, 4, 5, 6, 9")) (set_range 1 11) (u "#FF5733") (u "#33C1FF")
    = Some rest /\
    st_write (u "**A only**: {2, 8} ✅") ∈ rest.
Proof.
  destruct (detail_ticks_complement (parse_set (u "2, 4, 6, 8"))
              (parse_set (u "3, 4, 5, 6, 9")) (set_range 1 11)
              (u "#FF5733") (u "#33C1FF"))
    as (r0 & r1 & r2 & r3 & _ & H1 & _ & _ & Hb & _).
  { intros H. apply (f_equal elements) in H. vm_compute in H. discriminate H. }
  eexists. split; [exact Hb|].
  vm_compute in H1. injection H1 as <-.
  do 2 apply list_elem_of_further. apply list_elem_of_here.
Defined.

(** X15. The result of a complement operation never shares an element
    with the operand, and the two together make up the universal set
    exactly when the universal set contains the operand. *)
Theorem complement_partition (A B U : gset element) (cA cB : pystr) :
  Forall (fun '(name, operand) =>
            let d := two_set_dispatch name A B U cA cB in
            result d ## operand /\
            (result d ∪ operand = U <-> operand ⊆ U))
         (complement_table A B).
Proof.
  assert (forall X : gset element,
            (U ∖ X) ## X /\ ((U ∖ X) ∪ X = U <-> X ⊆ U)) as Hpart.
  { intros X. split; [set_solver|]. split.
    - intros <-. set_solver.
    - intros HX. apply set_eq. intros x.
      rewrite elem_of_union, elem_of_difference.
      destruct (decide (x ∈ X)); [|tauto]. split; [|tauto].
      intros _. by apply HX. }
  unfold complement_table. repeat constructor; apply Hpart.
Qed.

(** X16. The complements follow De Morgan's laws, whatever the universal
    set: the complement of the union is the intersection of the two
    complements, and the complement of the intersection is their
    union. *)
Theorem complement_de_morgan (A B U : gset element) (cA cB : pystr) :
  let r name := result (two_set_dispatch name A B U cA cB) in
  r (u "Complement of (A ∪ B)") = r (u "Complement of A") ∩ r (u "Complement of B") /\
  r (u "Complement of (A ∩ B)") = r (u "Complement of A") ∪ r (u "Complement of B").
Proof.
  cbn zeta.
  change (result (two_set_dispatch (u "Complement of (A ∪ B)") A B U cA cB))
    with (U ∖ (A ∪ B)).
  change (result (two_set_dispatch (u "Complement of (A ∩ B)") A B U cA cB))
    with (U ∖ (A ∩ B)).
  change (result (two_set_dispatch (u "Complement of A") A B U cA cB)) with (U ∖ A).
  change (result (two_set_dispatch (u "Complement of B") A B U cA cB)) with (U ∖ B).
  split; apply set_eq; intros x; set_unfold;
    destruct (decide (x ∈ A)), (decide (x ∈ B)); tauto.
Qed.

(** X17. For a complement operation the validation shows nothing
    exactly when the universal set contains every input set. *)
Theorem warning_iff_not_covered (i : inputs) (p : parsed) :
  Py.contains (u "Complement") (operation i) = true ->
  parse_inputs i = Some p ->
  validate_universal (operation i) (num_sets i) p = Some [] <->
  A p ⊆ U p /\ B p ⊆ U p /\ (forall c, C p = Some c -> c ⊆ U p).
Proof.
  intros Hc Hp. unfold parse_inputs in Hp.
  destruct (parse_universal (U_input i)) as [U0|]; [|done].
  simpl in Hp. injection Hp as <-. cbn [A B C U].
  unfold validate_universal, missing_elements. rewrite Hc. cbn [A B C U].
  destruct (num_sets i =? 3)%Z; simpl.
  - match goal with |- context [decide (?m = ∅)] => set (missing := m) end.
    destruct (decide (missing = ∅)) as [E|N].
    + split; [intros _|done]. unfold missing in E.
      split; [set_solver|]. split; [set_solver|].
      intros c [= <-]. set_solver.
    + destruct (format_set_total missing) as [r ->]. simpl.
      split; [done|]. intros (HA & HB & HC). exfalso. apply N.
      specialize (HC _ eq_refl). unfold missing. set_solver.
  - match goal with |- context [decide (?m = ∅)] => set (missing := m) end.
    destruct (decide (missing = ∅)) as [E|N].
    + split; [intros _|done]. unfold missing in E.
      split; [set_solver|]. split; [set_solver|]. done.
    + destruct (format_set_total missing) as [r ->]. simpl.
      split; [done|]. intros (HA & HB & _). exfalso. apply N.
      unfold missing. set_solver.
Qed.

Lemma warning_iff_not_covered_witness :
  let p := {| A := parse_set (u "2, 4, 6, 8"); B := parse_set (u "3, 4, 5, 6, 9");
              C := None; U := set_range 1 11 |} in
  parse_inputs (default2 (u "Complement of A")) = Some p /\
  validate_universal (u "Complement of A") 2 p = Some [].
Proof.
  intros p.
  assert (parse_inputs (default2 (u "Complement of A")) = Some p) as Hp
    by (by vm_compute).
  split; [done|].
  apply (warning_iff_not_covered (default2 (u "Complement of A")) p eq_refl Hp).
  split; [|split].
  - refine (bool_decide_unpack _ _). by vm_compute.
  - refine (bool_decide_unpack _ _). by vm_compute.
  - intros c H. discriminate H.
Defined.

(** X18. The dispatch shows its error exactly for the names that are not
    in the two-set menu. *)
Theorem error_iff_unknown (operation : pystr)
    (A B U : gset element) (cA cB : pystr) :
  dispatch_calls (two_set_dispatch operation A B U cA cB) = [] <->
  operation ∈ two_set_menu.
Proof.
  split.
  - intros Hd. destruct (decide (operation ∈ two_set_menu)) as [|Hnot]; [done|].
    exfalso. revert Hd. unfold two_set_dispatch. not_in_menu Hnot. done.
  - unfold two_set_menu. intros H.
    repeat (apply elem_of_cons in H as [-> | H]; [reflexivity|]).
    by apply elem_of_nil in H.
Qed.





(** X20. When the universal set is given as a range, every string among
    the elements of A and B is counted as missing from it. *)
Theorem range_universe_flags_strings (i : inputs) (p : parsed)
    (g1 g2 s : pystr) :
  range_fullmatch (Py.strip (U_input i)) = Some (g1, g2) ->
  parse_inputs i = Some p ->
  EStr s ∈ A p ∪ B p ->
  exists missing,
    missing_elements (num_sets i) p = Some missing /\ EStr s ∈ missing.
Proof.
  intros Hm Hp Hin. unfold parse_inputs in Hp.
  destruct (parse_universal (U_input i)) as [U0|] eqn:HU; [|done].
  destruct (parse_universal_range_spec _ _ _ _ Hm HU)
    as (a & b & _ & _ & _ & _ & Hints).
  cbn [mbind option_bind] in Hp.
  injection Hp as <-. unfold missing_elements. cbn [A B C U] in *.
  assert (EStr s ∉ U0) as Hnot.
  { intros H. apply Hints in H. discriminate H. }
  destruct (num_sets i =? 3)%Z; simpl; eexists; (split; [done|]); set_solver.
Qed.

Lemma range_universe_flags_strings_witness :
  exists missing,
    missing_elements 2
      {| A := parse_set (u "2, x"); B := parse_set (u "3"); C := None;
         U := set_range 1 11 |} = Some missing /\
    EStr (u "x") ∈ missing.
Proof.
  apply (range_universe_flags_strings
           {| num_sets := 2; A_input := u "2, x"; B_input := u "3"; C_input := [];
              color_A := []; color_B := []; U_input := u "1-10";
              operation := u "Complement of A" |} _ (u "1") (u "10") (u "x")).
  - reflexivity.
  - by vm_compute.
  - refine (bool_decide_unpack _ _). by vm_compute.
Defined.

(** * Further properties of the parsed sets *)

Lemma split_all_space_blank text :
  Forall (fun part => all_space part = true) (Py.split c_comma text) ->
  blank_text text = true.
Proof.
  unfold blank_text. induction text as [|c r IH]; simpl; [done|].
  destruct (c =? c_comma)%N eqn:Ec.
  - intros H. inversion H; subst. by apply IH.
  - pose proof (split_nonempty c_comma r).
    destruct (Py.split c_comma r) as [|p ps] eqn:E; [done|].
    intros H0. inversion H0 as [|? ? Hp Hps]; subst. simpl in Hp.
    apply andb_true_iff in Hp as [Hc Hp]. rewrite Hc. simpl.
    apply IH. by constructor.
Qed.

(** X22. [parse_set] gives the empty set exactly for the texts made of
    commas and whitespace only: any other character makes an element. *)
Theorem parse_set_empty_iff (text : pystr) :
  parse_set text = ∅ <-> blank_text text = true.
Proof.
  split.
  - intros He. apply split_all_space_blank, Forall_forall.
    intros part Hin. apply strip_empty_iff, parse_element_none_iff.
    destruct (parse_element part) as [e|] eqn:Hp; [|done].
    assert (e ∈ parse_set text) as H by (apply elem_of_parse_set; eauto).
    rewrite He in H. by apply not_elem_of_empty in H.
  - intros Hb. apply set_eq. intros e. rewrite elem_of_parse_set. split.
    + intros (part & Hin & Hpart).
      pose proof (split_blank text Hb) as Hall.
      rewrite Forall_forall in Hall. specialize (Hall _ Hin). simpl in Hall.
      apply (strip_empty_iff Py.isspace), parse_element_none_iff in Hall.
      congruence.
    + intros H. by apply not_elem_of_empty in H.
Qed.

Lemma parse_set_empty_iff_witness :
  blank_text (u " , ,") = true /\ parse_set (u " ,x,") <> ∅.
Proof.
  split.
  - apply (parse_set_empty_iff (u " , ,")). reflexivity.
  - intros H. apply (parse_set_empty_iff (u " ,x,")) in H. discriminate H.
Defined.

(** X23. Every integer of a universal set that [parse_universal]
    returns is below [10 ^ 4300] in absolute value, so that its text is
    read back by [int] as the same integer. *)
Theorem parse_universal_int_bound (text : pystr) (U0 : gset element) (n : Z) :
  parse_universal text = Some U0 -> EInt n ∈ U0 ->
  Z.abs n < 10 ^ Z.of_N Py.int_max_str_digits /\
  Py.int (str (EInt n)) = Some n.
Proof.
  intros HU Hin.
  assert (Z.abs n < 10 ^ Z.of_N Py.int_max_str_digits) as Hn.
  { destruct (range_fullmatch (Py.strip text)) as [[g1 g2]|] eqn:E.
    - destruct (parse_universal_range_spec _ _ _ _ E HU)
        as (a & b & Ha & Hb & -> & _ & _).
      apply int_bound in Ha. apply int_bound in Hb.
      apply elem_of_set_range in Hin as (m & [= <-] & Hm).
      generalize dependent (10 ^ Z.of_N Py.int_max_str_digits). intros. lia.
    - unfold parse_universal in HU. rewrite E in HU. injection HU as <-.
      apply parse_set_parsed in Hin. by apply Z.ltb_lt in Hin. }
  split; [done | by apply int_pretty].
Qed.

Lemma parse_universal_int_bound_witness :
  Z.abs 5 < 10 ^ Z.of_N Py.int_max_str_digits /\
  Py.int (str (EInt 5)) = Some 5.
Proof.
  apply (parse_universal_int_bound (u "3-7") (set_range 3 8) 5).
  - by vm_compute.
  - refine (bool_decide_unpack _ _). by vm_compute.
Defined.
